(** * anki-japanese-app: field mapping, word lookup and the deck pipeline

    A shallow embedding of the front-end code that validates a field
    mapping (the FieldMapper component), of the API client it calls
    (services/api) and of the sense selection of the JapaneseWordLookup
    component.

    Conventions of the embedding:
    - a JavaScript string is a [string] holding its UTF-8 bytes; on
      well-formed text, substring search over the bytes coincides with
      [String.prototype.includes] over UTF-16 code units;
    - a JavaScript object used as a record ([Record<string, string>]) is a
      [gmap string string]; [Object.entries] is [map_to_list] (the loops over
      it do not depend on the order of the entries);
    - React state is threaded explicitly: a handler takes the component state
      and returns the new one;
    - a promise that settles is a value of [promise], either [Fulfilled] or
      [Rejected]; the runtime functions whose Unicode tables are out of scope
      ([toLowerCase], [trim]) and the network are parameters. *)

From Stdlib Require Import Ascii String.
From stdpp Require Import gmap strings list fin_maps pretty.

Set Default Proof Using "Type".
#[local] Set Warnings "-clear-no-such-hyp".
Open Scope string_scope.
Open Scope list_scope.
Open Scope nat_scope.

(** * Part I: the embedding *)

(** ** JavaScript preliminaries *)

Module Js.

(** [Boolean(s)] on a string: every string but the empty one is truthy. *)
Definition Boolean (s : string) : bool := negb (String.eqb s "").

(** [!mapping[k]] where the property may be absent ([undefined]). *)
Definition falsy (v : option string) : bool :=
  match v with
  | None => true
  | Some s => negb (Boolean s)
  end.

(** The callback of [usedHeaders.filter(item => ...)] that keeps the items
    met before, together with the [seen] set it mutates. *)
Fixpoint seen_before (seen : gset string) (items : list string) : list string :=
  match items with
  | [] => []
  | item :: rest =>
      if negb (Boolean item) then seen_before seen rest
      else if bool_decide (item ∈ seen) then item :: seen_before seen rest
      else seen_before ({[item]} ∪ seen) rest
  end.

(** [array.includes(x)] *)
Definition includes (l : list string) (x : string) : bool :=
  bool_decide (x ∈ l).

(** [s.startsWith(prefix)] and [s.includes(needle)] on strings. *)
Fixpoint startsWith (s prefix : string) {struct prefix} : bool :=
  match prefix, s with
  | EmptyString, _ => true
  | String _ _, EmptyString => false
  | String p prefix', String c s' => Ascii.eqb p c && startsWith s' prefix'
  end.

Fixpoint str_includes (s needle : string) : bool :=
  startsWith s needle ||
  match s with
  | EmptyString => false
  | String _ s' => str_includes s' needle
  end.

(** [needle] occurs in [s] at some position. *)
Definition occurs_in (needle s : string) : Prop :=
  ∃ pre post, s = String.append pre (String.append needle post).

(** [String.prototype.toLowerCase] on text whose only cased letters are the
    ASCII ones (bytes of other scripts are left as they are). *)
Definition lower_char (c : ascii) : ascii :=
  let n := nat_of_ascii c in
  if (65 <=? n) && (n <=? 90) then ascii_of_nat (n + 32) else c.

Fixpoint toLowerCase_ascii (s : string) : string :=
  match s with
  | EmptyString => EmptyString
  | String c s' => String (lower_char c) (toLowerCase_ascii s')
  end.

(** [String.prototype.trim] on text whose white space is ASCII (tab, line
    feed, vertical tab, form feed, carriage return, space). *)
Definition is_space (c : ascii) : bool :=
  let n := nat_of_ascii c in ((9 <=? n) && (n <=? 13)) || (n =? 32)%nat.

Fixpoint trimStart (s : string) : string :=
  match s with
  | EmptyString => EmptyString
  | String c s' => if is_space c then trimStart s' else s
  end.

Definition reverse_string (s : string) : string :=
  string_of_list_ascii (rev (list_ascii_of_string s)).

Definition trim_ascii (s : string) : string :=
  reverse_string (trimStart (reverse_string (trimStart s))).

(** The completion of a synchronous call: a value, or a thrown error. *)
Inductive completion (A : Type) : Type :=
  | Returned (value : A)
  | Threw (error : string).
Arguments Returned {A} value.
Arguments Threw {A} error.

(** The property names an object literal inherits from [Object.prototype]:
    reading one of them on an object that does not define it gives a
    function (for [__proto__], the prototype itself), never [undefined]. *)
Definition Object_prototype_names : list string :=
  [ "constructor"; "hasOwnProperty"; "isPrototypeOf"; "propertyIsEnumerable";
    "toLocaleString"; "toString"; "valueOf"; "__proto__";
    "__defineGetter__"; "__defineSetter__"; "__lookupGetter__"; "__lookupSetter__" ].

(** A settled promise. [await] is the bind of the monad and a
    [try { ... } catch (error) { ... }] block around awaited calls is
    [try_catch]. *)
Inductive promise (A : Type) : Type :=
  | Fulfilled (value : A)
  | Rejected (reason : string).
Arguments Fulfilled {A} value.
Arguments Rejected {A} reason.

#[global] Instance promise_ret : MRet promise := λ A value, Fulfilled value.
#[global] Instance promise_bind : MBind promise := λ A B k p,
  match p with
  | Fulfilled value => k value
  | Rejected reason => Rejected reason
  end.

Definition try_catch {A : Type} (body : promise A) (handler : string → promise A)
    : promise A :=
  match body with
  | Fulfilled value => Fulfilled value
  | Rejected reason => handler reason
  end.

End Js.

(** ** The FieldMapper component *)

Module FieldMapper.
Import Js.

Record AnkiField := mkField { id : string; label : string; required : bool }.

Definition ankiFields : list AnkiField :=
  [ mkField "japanese" "Japanese Word" true;
    mkField "english" "English Meaning" false;
    mkField "reading" "Reading/Pronunciation" false;
    mkField "example" "Example Sentence" false;
    mkField "tags" "Tags" false ].

(** The [useState] cells of the component that the validation code reads
    or writes. *)
Record State := mkState {
  headers : list string;
  suggestedMapping : gmap string string;
  currentMapping : gmap string string;
  validationErrors : gmap string string
}.

Definition setValidationErrors (errors : gmap string string) (st : State) : State :=
  {| headers := headers st;
     suggestedMapping := suggestedMapping st;
     currentMapping := currentMapping st;
     validationErrors := errors |}.

Definition required_msg (f : AnkiField) : string := String.append (label f) " is required".
Definition duplicate_msg : string := "This column is used in multiple fields".

(** First loop of [validateMapping]: [ankiFields.forEach(field => ...)],
    threading the local variables [errors] and [isValid]. *)
Definition check_required (mapping : gmap string string)
    (acc : gmap string string * bool) (field : AnkiField)
    : gmap string string * bool :=
  if required field && falsy (mapping !! id field)
  then (<[id field := required_msg field]> acc.1, false)
  else acc.

(** [Object.values(mapping).filter(Boolean)] *)
Definition usedHeaders (mapping : gmap string string) : list string :=
  filter (λ item, Boolean item) (map_to_list mapping).*2.

(** [new Set(usedHeaders)] *)
Definition uniqueHeaders (mapping : gmap string string) : gset string :=
  list_to_set (usedHeaders mapping).

Definition duplicates (mapping : gmap string string) : list string :=
  seen_before ∅ (usedHeaders mapping).

(** Second loop: [Object.entries(mapping).forEach(([field, header]) => ...)] *)
Definition mark_duplicate (dups : list string)
    (errors : gmap string string) (entry : string * string)
    : gmap string string :=
  if includes dups entry.2 then <[entry.1 := duplicate_msg]> errors else errors.

(** The body of [validateMapping] up to the call of [setValidationErrors]:
    the pair of the locals [errors] and [isValid]. *)
Definition validateMapping_locals (mapping : gmap string string)
    : gmap string string * bool :=
  let '(errors, isValid) := foldl (check_required mapping) (∅, true) ankiFields in
  if bool_decide (length (usedHeaders mapping) ≠ size (uniqueHeaders mapping))
  then (foldl (mark_duplicate (duplicates mapping)) errors (map_to_list mapping), false)
  else (errors, isValid).

(** The same body run on the entries in the order the runtime enumerates
    them: [entries] is [Object.entries(mapping)] of the object [mapping]. *)
Definition validateMapping_ordered (mapping : gmap string string)
    (entries : list (string * string)) : gmap string string * bool :=
  let '(errors, isValid) := foldl (check_required mapping) (∅, true) ankiFields in
  let used := filter (λ item, Boolean item) entries.*2 in
  if bool_decide (length used ≠ size (list_to_set used : gset string))
  then (foldl (mark_duplicate (seen_before ∅ used)) errors entries, false)
  else (errors, isValid).

(** [validateMapping]: returns [isValid] and stores [errors] in the
    component state. *)
Definition validateMapping (mapping : gmap string string) (st : State)
    : bool * State :=
  let '(errors, isValid) := validateMapping_locals mapping in
  (isValid, setValidationErrors errors st).

(** The errors record a call leaves in the state, and its return value. *)
Definition errors_of (mapping : gmap string string) : gmap string string :=
  (validateMapping_locals mapping).1.
Definition valid_of (mapping : gmap string string) : bool :=
  (validateMapping_locals mapping).2.

(** The synonym table of [findPossibleMatches]. *)
Definition synonyms : gmap string (list string) :=
  {[ "japanese" := ["japanese"; "word"; "expression"; "kanji"; "vocabulary"; "日本語"; "front"];
     "english" := ["english"; "meaning"; "translation"; "definition"; "英語"; "back"];
     "reading" := ["reading"; "pronunciation"; "kana"; "hiragana"; "yomigana"; "読み方"];
     "example" := ["example"; "sentence"; "usage"; "context"; "例文"];
     "tags" := ["tags"; "tag"; "category"; "categories"; "group"] ]}.

(** The synonym lists as the specification gives them. *)
Definition spec_synonyms : gmap string (list string) :=
  {[ "japanese" := ["japanese"; "word"; "front"; "kanji"; "vocabulary"; "expression"; "日本語"];
     "english" := ["english"; "meaning"; "translation"; "back"; "definition"];
     "reading" := ["reading"; "pronunciation"; "kana"; "hiragana"; "yomigana"];
     "example" := ["example"; "sentence"; "usage"; "context"];
     "tags" := ["tag"; "tags"; "category"; "categories"; "group"] ]}.

Section Matching.
(** The runtime's [String.prototype.toLowerCase]. *)
Variable toLowerCase : string → string.

(** The callback of [headers.filter]: some synonym occurs in the header,
    both in lower case. *)
Definition matches_synonym (fieldSynonyms : list string) (header : string) : bool :=
  existsb (λ synonym, str_includes (toLowerCase header) (toLowerCase synonym))
          fieldSynonyms.

(** [findPossibleMatches]. For a name that is not a key of the table,
    [synonyms[ankiField] || []] is the empty list, unless the name is
    inherited from [Object.prototype]: then it is a function, and the call of
    its [some] in the filter callback throws. *)
Definition findPossibleMatches (st : State) (ankiField : string)
    : completion (list string) :=
  if bool_decide (length (headers st) = 0) then Returned []
  else
    match synonyms !! ankiField with
    | Some fieldSynonyms =>
        Returned (filter (λ header, matches_synonym fieldSynonyms header) (headers st))
    | None =>
        if bool_decide (ankiField ∈ Object_prototype_names)
        then Threw "TypeError: fieldSynonyms.some is not a function"
        else Returned (filter (λ header, matches_synonym [] header) (headers st))
    end.

(** [synonym] occurs in [header] when case is ignored. *)
Definition occurs_ignoring_case (synonym header : string) : Prop :=
  occurs_in (toLowerCase synonym) (toLowerCase header).

End Matching.

(** The mapping without its "not mapped" entries (entries whose column is
    the empty string). *)
Definition drop_unmapped (mapping : gmap string string) : gmap string string :=
  filter (λ entry, entry.2 ≠ "") mapping.

Definition kept (vals : list string) : list string :=
  filter (λ item, Boolean item) vals.

(** Two distinct fields share the non-empty column [h]. *)
Definition collides (mapping : gmap string string) (h : string) : Prop :=
  h ≠ "" ∧ ∃ f g, f ≠ g ∧ mapping !! f = Some h ∧ mapping !! g = Some h.

Definition japanese_required_msg : string := "Japanese Word is required".

(** *** Sample mappings and states *)

Definition term_mapping : gmap string string :=
  {[ "japanese" := "Term"; "english" := "Definition"; "reading" := "Pronunciation" ]}.

Definition colA_mapping : gmap string string :=
  {[ "japanese" := "ColA"; "english" := "ColA" ]}.

Definition unmapped_rest : gmap string string :=
  {[ "japanese" := "Term"; "english" := ""; "reading" := ""; "example" := ""; "tags" := "" ]}.

Definition ghost_mapping : gmap string string := {[ "japanese" := "Ghost" ]}.

Definition term_state : State :=
  mkState ["Term"; "Definition"; "Pronunciation"] ∅ ∅ ∅.

(** The state after the server's verdict was merged into the error record
    ([setValidationErrors(prev => ({...prev, ...validationResult.errors}))]). *)
Definition server_rejected_state : State :=
  mkState ["Term"; "Definition"; "Pronunciation"] term_mapping term_mapping
    {[ "_general" := "Failed to validate field mapping with server" ]}.

Definition kanji_english_state : State := mkState ["英語"; "Word"] ∅ ∅ ∅.

End FieldMapper.

(** ** The API client (services/api) *)

Module Api.
Import Js.

Definition API_BASE_URL : string := "http://localhost:8000/api".

Record ValidationResult := mkValidationResult {
  valid : bool;
  errors : gmap string string
}.

(** The JSON body of the validation request. *)
Record ValidateBody := mkValidateBody {
  session_id : string;
  mapping : gmap string string
}.

(** [axios.post(url, body)] against the mapping endpoints: the network and
    the server, seen from the client as the settled promise of
    [response.data]. *)
Definition Post : Type := string → ValidateBody → promise ValidationResult.

Definition server_unreachable : ValidationResult :=
  mkValidationResult false
    {[ "_general" := "Failed to validate field mapping with server" ]}.

Definition applyFieldMapping (post : Post) (sessionId : string)
    (mapping : gmap string string) : promise ValidationResult :=
  try_catch
    (data ← post (String.append API_BASE_URL "/mapping/apply")
                 (mkValidateBody sessionId mapping);
     mret data)
    (λ error, Rejected error).

Definition validateFieldMapping (post : Post) (sessionId : string)
    (mapping : gmap string string) : promise ValidationResult :=
  try_catch
    (data ← post (String.append API_BASE_URL "/mapping/validate")
                 (mkValidateBody sessionId mapping);
     mret data)
    (λ error, Fulfilled server_unreachable).

(** A server that is down, and one that answers. *)
Definition offline : Post := λ url body, Rejected "Network Error".
Definition accepting : Post := λ url body, Fulfilled (mkValidationResult true ∅).

End Api.

(** ** The JapaneseWordLookup component *)

Module WordLookup.
Import Js.

Record Sense := mkSense {
  sense_meanings : list string;
  sense_parts_of_speech : list string;
  sense_tags : list string
}.

(** The data of a lookup response; [senses] is absent in the flat format. *)
Record LookupData := mkLookupData {
  data_word : string;
  data_reading : string;
  meanings : list string;
  parts_of_speech : list string;
  senses : option (list Sense);
  examples : list (string * string)
}.

(** The response of the add-word endpoint. *)
Record AddResponse := mkAddResponse {
  collection_id : option string;
  word_count : nat;
  message : string
}.

(** The arguments of a call of [addWordToCollection]. *)
Record AddCall := mkAddCall {
  arg_word : string;
  arg_reading : string;
  arg_meanings : list string;
  arg_partsOfSpeech : list string;
  arg_examples : list (string * string);
  arg_collectionId : option string;
  arg_selectedSenseIds : option (list nat)
}.

(** The [useState] cells of the component; [toasts] logs the titles of the
    notifications shown. *)
Record State := mkState {
  word : string;
  result : option LookupData;
  isLoading : bool;
  error : option string;
  collectionId : option string;
  wordCount : nat;
  isAddingToCollection : bool;
  selectedSenseIds : list nat;
  toasts : list string
}.

Definition setResult (v : option LookupData) (st : State) : State :=
  mkState (word st) v (isLoading st) (error st) (collectionId st) (wordCount st)
    (isAddingToCollection st) (selectedSenseIds st) (toasts st).
Definition setIsLoading (v : bool) (st : State) : State :=
  mkState (word st) (result st) v (error st) (collectionId st) (wordCount st)
    (isAddingToCollection st) (selectedSenseIds st) (toasts st).
Definition setError (v : option string) (st : State) : State :=
  mkState (word st) (result st) (isLoading st) v (collectionId st) (wordCount st)
    (isAddingToCollection st) (selectedSenseIds st) (toasts st).
Definition setCollectionId (v : option string) (st : State) : State :=
  mkState (word st) (result st) (isLoading st) (error st) v (wordCount st)
    (isAddingToCollection st) (selectedSenseIds st) (toasts st).
Definition setWordCount (v : nat) (st : State) : State :=
  mkState (word st) (result st) (isLoading st) (error st) (collectionId st) v
    (isAddingToCollection st) (selectedSenseIds st) (toasts st).
Definition setIsAddingToCollection (v : bool) (st : State) : State :=
  mkState (word st) (result st) (isLoading st) (error st) (collectionId st) (wordCount st)
    v (selectedSenseIds st) (toasts st).
Definition setSelectedSenseIds (v : list nat) (st : State) : State :=
  mkState (word st) (result st) (isLoading st) (error st) (collectionId st) (wordCount st)
    (isAddingToCollection st) v (toasts st).
Definition toast (title : string) (st : State) : State :=
  mkState (word st) (result st) (isLoading st) (error st) (collectionId st) (wordCount st)
    (isAddingToCollection st) (selectedSenseIds st) (toasts st ++ [title]).

(** [data.senses && data.senses.length > n] *)
Definition senses_longer_than (n : nat) (data : LookupData) : bool :=
  match senses data with
  | Some ss => bool_decide (n < length ss)
  | None => false
  end.

Section Handlers.
(** The runtime's [String.prototype.trim] and the two API calls. *)
Variable trim : string → string.
Variable lookupWord : string → promise LookupData.
Variable addWordToCollection : AddCall → promise AddResponse.

Definition handleLookup (st : State) : State :=
  if negb (Boolean (trim (word st))) then
    setError (Some "Please enter a Japanese word to look up") st
  else
    let st := setIsLoading true st in
    let st := setError None st in
    let st := setSelectedSenseIds [] st in
    let st :=
      match lookupWord (trim (word st)) with
      | Fulfilled data =>
          let st := setResult (Some data) st in
          if senses_longer_than 0 data then
            if bool_decide (length (default [] (senses data)) = 1)
            then setSelectedSenseIds [0] st
            else setSelectedSenseIds [0] st
          else setSelectedSenseIds [] st
      | Rejected _ =>
          setError (Some "Failed to look up the word. Please try again.") st
      end in
    setIsLoading false st.

(** The checkboxes rendered when [result.senses.length > 1]: one per sense,
    carrying its index. *)
Definition senseOptions (st : State) : list (nat * Sense) :=
  match result st with
  | Some data =>
      if senses_longer_than 1 data then imap (λ idx sense, (idx, sense)) (default [] (senses data))
      else []
  | None => []
  end.

(** [onChange] of the checkbox group. *)
Definition changeSelection (values : list nat) (st : State) : State :=
  setSelectedSenseIds values st.

(** The [forEach] over [selectedSenseIds] in [handleAddToCollection]:
    the chosen field of every selected sense that exists, appended in order. *)
Definition collect_selected {A : Type} (field : Sense → list A)
    (ss : list Sense) (ids : list nat) : list A :=
  foldl (λ acc senseId,
           match ss !! senseId with
           | Some sense => acc ++ field sense
           | None => acc
           end) [] ids.

(** The call of [addWordToCollection] that [handleAddToCollection] makes in
    state [st], if it makes one. *)
Definition addCall (st : State) : option AddCall :=
  match result st with
  | None => None
  | Some data =>
      if senses_longer_than 1 data && bool_decide (length (selectedSenseIds st) = 0)
      then None
      else
        let chosen :=
          match senses data with
          | Some ss =>
              if bool_decide (0 < length (selectedSenseIds st))
              then (collect_selected sense_meanings ss (selectedSenseIds st),
                    collect_selected sense_parts_of_speech ss (selectedSenseIds st))
              else (meanings data, parts_of_speech data)
          | None => (meanings data, parts_of_speech data)
          end in
        Some (mkAddCall (data_word data) (data_reading data) chosen.1 chosen.2
                (examples data)
                (if falsy (collectionId st) then None else collectionId st)
                (if bool_decide (0 < length (selectedSenseIds st))
                 then Some (selectedSenseIds st) else None))
  end.

Definition handleAddToCollection (st : State) : State :=
  match result st with
  | None => st
  | Some data =>
      if senses_longer_than 1 data && bool_decide (length (selectedSenseIds st) = 0)
      then toast "Please select meanings" st
      else
        let st := setIsAddingToCollection true st in
        let st :=
          match addCall st with
          | Some call =>
              match addWordToCollection call with
              | Fulfilled response =>
                  let st :=
                    if falsy (collectionId st) && negb (falsy (collection_id response))
                    then setCollectionId (collection_id response) st
                    else st in
                  let st := setWordCount (word_count response) st in
                  toast "Word added!" st
              | Rejected _ => toast "Error adding word" st
              end
          | None => st
          end in
        setIsAddingToCollection false st
  end.

End Handlers.

(** *** Sample lookup *)

Definition kakeru : LookupData :=
  mkLookupData "掛ける" "かける" ["to hang"; "to sit"] ["Ichidan verb"]
    (Some [ mkSense ["to hang"; "to suspend"] ["Ichidan verb"] [];
            mkSense ["to sit"] ["Ichidan verb"] ["Usually written using kana alone"] ])
    [].

Definition fresh_state : State :=
  mkState " 掛ける " None false None None 0 false [] [].

Definition dictionary : string → promise LookupData :=
  λ w, if String.eqb w "掛ける" then Fulfilled kakeru else Rejected "404".

End WordLookup.

(** ** The FieldMapper component: helpers, edits and what is rendered *)

Module FieldMapperUi.
Import Js FieldMapper.

(** [hasRequiredFields]: every required field is mapped to a non-empty
    column. *)
Definition hasRequiredFields (mapping : gmap string string) : bool :=
  forallb (λ field, negb (falsy (mapping !! id field)))
          (List.filter required ankiFields).

Definition setCurrentMapping (mapping : gmap string string) (st : State) : State :=
  {| headers := headers st;
     suggestedMapping := suggestedMapping st;
     currentMapping := mapping;
     validationErrors := validationErrors st |}.

(** [handleMappingChange]: [{...currentMapping, [ankiField]: csvHeader}]. *)
Definition handleMappingChange (ankiField csvHeader : string) (st : State) : State :=
  setCurrentMapping (<[ankiField := csvHeader]> (currentMapping st)) st.

(** [isDisabled] of the "Apply Custom Mapping" button:
    [Object.keys(validationErrors).length > 0]. *)
Definition applyDisabled (st : State) : bool :=
  bool_decide (0 < size (validationErrors st)).

(** The icon in the Status column of a field's row. *)
Inductive StatusIcon :=
  | ErrorIcon (tooltip : string)
  | MappedIcon
  | RequiredIcon
  | NoIcon.

Definition statusIcon (st : State) (field : AnkiField) : StatusIcon :=
  if negb (falsy (validationErrors st !! id field))
  then ErrorIcon (default "" (validationErrors st !! id field))
  else if negb (falsy (currentMapping st !! id field)) then MappedIcon
  else if required field then RequiredIcon
  else NoIcon.

(** *** Sample edits *)

(** The component showing its suggestion for a file with headers Term,
    Definition, Pronunciation, Notes. *)
Definition mapped_state : State :=
  mkState ["Term"; "Definition"; "Pronunciation"; "Notes"] term_mapping term_mapping ∅.

End FieldMapperUi.

(** ** The second copy of the FieldMapper component *)

Module FieldMapper2.
Import Js FieldMapper.

(** The callback of [usedHeaders.filter] in this copy: no test of the item
    itself. *)
Fixpoint seen_before (seen : gset string) (items : list string) : list string :=
  match items with
  | [] => []
  | item :: rest =>
      if bool_decide (item ∈ seen) then item :: seen_before seen rest
      else seen_before ({[item]} ∪ seen) rest
  end.

Definition duplicates (mapping : gmap string string) : list string :=
  seen_before ∅ (usedHeaders mapping).

(** The body of this copy's [validateMapping]. *)
Definition validateMapping_locals (mapping : gmap string string)
    : gmap string string * bool :=
  let '(errors, isValid) := foldl (check_required mapping) (∅, true) ankiFields in
  if bool_decide (length (usedHeaders mapping) ≠ size (uniqueHeaders mapping))
  then (foldl (mark_duplicate (duplicates mapping)) errors (map_to_list mapping), false)
  else (errors, isValid).

Definition validateMapping (mapping : gmap string string) (st : State)
    : bool * State :=
  let '(errors, isValid) := validateMapping_locals mapping in
  (isValid, setValidationErrors errors st).

End FieldMapper2.

(** ** The FieldMapper component: applying a mapping *)

Module FieldMapperHandlers.
Import Js FieldMapper FieldMapperUi.

(** The component with what its handlers touch besides the validation
    cells: the [sessionId] prop, the [applyingMapping] cell, the toasts
    shown (by title), [sessionStorage], the URLs of the requests sent and the
    mappings passed to [onMappingComplete], the last three in order. *)
Record Page := mkPage {
  sessionId : option string;
  cells : State;
  applyingMapping : bool;
  isChanged : bool;
  toasts : list string;
  sessionStorage : gmap string string;
  requests : list string;
  completed : list (gmap string string)
}.

Definition setCells (v : State) (p : Page) : Page :=
  mkPage (sessionId p) v (applyingMapping p) (isChanged p) (toasts p) (sessionStorage p)
    (requests p) (completed p).
Definition setApplyingMapping (v : bool) (p : Page) : Page :=
  mkPage (sessionId p) (cells p) v (isChanged p) (toasts p) (sessionStorage p)
    (requests p) (completed p).
Definition toast (title : string) (p : Page) : Page :=
  mkPage (sessionId p) (cells p) (applyingMapping p) (isChanged p) (toasts p ++ [title])
    (sessionStorage p) (requests p) (completed p).
Definition setItem (key value : string) (p : Page) : Page :=
  mkPage (sessionId p) (cells p) (applyingMapping p) (isChanged p) (toasts p)
    (<[key := value]> (sessionStorage p)) (requests p) (completed p).
Definition setIsChanged (v : bool) (p : Page) : Page :=
  mkPage (sessionId p) (cells p) (applyingMapping p) v (toasts p) (sessionStorage p)
    (requests p) (completed p).
Definition sent (url : string) (p : Page) : Page :=
  mkPage (sessionId p) (cells p) (applyingMapping p) (isChanged p) (toasts p) (sessionStorage p)
    (requests p ++ [url]) (completed p).
Definition onMappingComplete (mapping : gmap string string) (p : Page) : Page :=
  mkPage (sessionId p) (cells p) (applyingMapping p) (isChanged p) (toasts p) (sessionStorage p)
    (requests p) (completed p ++ [mapping]).

Definition validate_url : string := String.append Api.API_BASE_URL "/mapping/validate".
Definition apply_url : string := String.append Api.API_BASE_URL "/mapping/apply".

Section Handlers.
(** The network and the runtime's [JSON.stringify]. *)
Variable post : Api.Post.
Variable stringify : gmap string string → string.

(** [await applyFieldMapping(...)] and what follows it in
    [handleApplyMapping]; a rejection is caught by the handler's outer
    [catch]. *)
Definition apply_and_save (sid : string) (mapping : gmap string string) (p : Page)
    : Page :=
  let p := sent apply_url p in
  match Api.applyFieldMapping post sid mapping with
  | Fulfilled _ =>
      let p := setItem "csvFieldMapping" (stringify mapping) p in
      let p := toast "Field mapping applied" p in
      onMappingComplete mapping p
  | Rejected _ => toast "Mapping failed" p
  end.

Definition handleApplyMapping (p : Page) : Page :=
  let mapping := currentMapping (cells p) in
  let '(isValid, validated) := validateMapping mapping (cells p) in
  let p := setCells validated p in
  let p :=
    if negb isValid then toast "Validation Error" p
    else
      let p := setApplyingMapping true p in
      match sessionId p with
      | Some sid =>
          if negb (Boolean sid) then toast "Mapping failed" p
          else
            let p := sent validate_url p in
            match Api.validateFieldMapping post sid mapping with
            | Fulfilled validationResult =>
                if negb (Api.valid validationResult) then
                  let p := setCells (setValidationErrors (Api.errors validationResult)
                                                         (cells p)) p in
                  toast "Server Validation Failed" p
                else apply_and_save sid mapping p
            | Rejected _ => apply_and_save sid mapping p
            end
      | None => toast "Mapping failed" p
      end in
  setApplyingMapping false p.

Definition handleUseDefault (p : Page) : Page :=
  let suggested := suggestedMapping (cells p) in
  let p := setCells (setCurrentMapping suggested (cells p)) p in
  let p := setCells (setValidationErrors ∅ (cells p)) p in
  let '(isValid, validated) := validateMapping suggested (cells p) in
  let p := setCells validated p in
  if isValid then
    let p := setApplyingMapping true p in
    let p :=
      match sessionId p with
      | Some sid =>
          if negb (Boolean sid) then p
          else
            let p := sent apply_url p in
            match Api.applyFieldMapping post sid suggested with
            | Fulfilled _ =>
                let p := setItem "csvFieldMapping" (stringify suggested) p in
                let p := toast "Default mapping applied" p in
                onMappingComplete suggested p
            | Rejected _ => toast "Default mapping failed" p
            end
      | None => p
      end in
    setApplyingMapping false p
  else toast "Default mapping loaded" p.

(** The answer of the server to the validation request for [mapping], as
    [handleApplyMapping] sees it through [validateFieldMapping]. *)
Definition server_accepts (sid : string) (mapping : gmap string string) : bool :=
  match post validate_url (Api.mkValidateBody sid mapping) with
  | Fulfilled validationResult => Api.valid validationResult
  | Rejected _ => false
  end.

Definition apply_succeeds (sid : string) (mapping : gmap string string) : bool :=
  match post apply_url (Api.mkValidateBody sid mapping) with
  | Fulfilled _ => true
  | Rejected _ => false
  end.

(** [handleResetMapping]; [confirmed] is the answer of [window.confirm]. *)
Definition handleResetMapping (confirmed : bool) (p : Page) : Page :=
  if bool_decide (0 < size (currentMapping (cells p))) then
    if confirmed then
      let p := setCells (setCurrentMapping ∅ (cells p)) p in
      let p := setCells (setValidationErrors ∅ (cells p)) p in
      toast "Mapping reset" p
    else p
  else toast "Nothing to reset" p.

(** The effect run when the mapping has changed, up to the point where it
    schedules the debounced validation on the server: nothing at all for an
    empty mapping; otherwise the client validation and the comparison with
    the suggestion. *)
Definition mappingEffect (p : Page) : Page :=
  if bool_decide (0 < size (currentMapping (cells p))) then
    let '(_, validated) := validateMapping (currentMapping (cells p)) (cells p) in
    let p := setCells validated p in
    setIsChanged (negb (String.eqb (stringify (currentMapping (cells p)))
                                   (stringify (suggestedMapping (cells p))))) p
  else p.

(** The conditions under which a run of [handleApplyMapping] gets through:
    the client validation accepts the mapping, there is a session, the
    server's validation answers and accepts, and the apply request
    succeeds. *)
Definition has_session (p : Page) : bool := negb (falsy (sessionId p)).

Definition goes_through (p : Page) : bool :=
  (validateMapping (currentMapping (cells p)) (cells p)).1 &&
  has_session p &&
  server_accepts (default "" (sessionId p)) (currentMapping (cells p)) &&
  apply_succeeds (default "" (sessionId p)) (currentMapping (cells p)).

End Handlers.

(** *** Sample pages and servers *)

Definition sample_page (mapping : gmap string string) : Page :=
  mkPage (Some "session-1")
    (mkState ["Term"; "Definition"; "Pronunciation"] term_mapping mapping ∅)
    false false [] ∅ [] [].

(** A server whose validation endpoint is down while the rest answers. *)
Definition validation_down : Api.Post :=
  λ url body,
    if String.eqb url validate_url then Rejected "Network Error"
    else Fulfilled (Api.mkValidationResult true ∅).

(** A stand-in for [JSON.stringify] on the sample mappings. *)
Definition sample_stringify : gmap string string → string :=
  λ mapping, String.concat ","
    ((λ entry, String.append entry.1 (String.append ":" entry.2)) <$> map_to_list mapping).

End FieldMapperHandlers.

(** ** The API client: the forms of deck creation and preview *)

Module ApiForms.
Import Js.

(** A parsed JSON value, as far as [Object.keys] sees it: an array by its
    length, an object by its keys. *)
Inductive Json :=
  | JNull
  | JBool (b : bool)
  | JNumber (literal : string)
  | JString (s : string)
  | JArray (length : nat)
  | JObject (keys : list string).

(** [parsedMapping && Object.keys(parsedMapping).length > 0]: a boolean or a
    number has no keys, a string has one per code unit, an array one per
    item. *)
Definition has_keys (parsedMapping : Json) : bool :=
  match parsedMapping with
  | JNull | JBool _ | JNumber _ => false
  | JString s => Boolean s
  | JArray n => bool_decide (0 < n)
  | JObject keys => bool_decide (0 < length keys)
  end.

Record EnrichmentOptions := mkOptions {
  enrichCards : bool;
  includeAudio : bool;
  includeExamples : bool;
  includeExampleAudio : option bool;
  useCore2000 : option bool
}.

(** [b.toString()] and [b?.toString() || 'false']. *)
Definition toString (b : bool) : string := if b then "true" else "false".
Definition toString_or_false (b : option bool) : string :=
  match b with
  | Some b => toString b
  | None => "false"
  end.

(** A [FormData] is the list of its entries, in the order appended. *)
Definition FormData : Type := list (string * string).

Section Forms.
(** The runtime's [JSON.stringify] and [JSON.parse] (which may throw). *)
Variable stringify : gmap string string → string.
Variable parse : string → promise Json.

(** The [else] branch shared by both forms: the mapping saved in the
    session storage is sent when it parses to something with keys;
    [with_flag] says whether [use_custom_mapping] goes with it. *)
Definition saved_mapping_entries (with_flag : bool) (storage : gmap string string)
    : FormData :=
  match storage !! "csvFieldMapping" with
  | Some savedMapping =>
      if Boolean savedMapping then
        match parse savedMapping with
        | Fulfilled parsedMapping =>
            if has_keys parsedMapping then
              ("field_mapping", savedMapping)
              :: (if with_flag then [("use_custom_mapping", "true")] else [])
            else []
        | Rejected _ => []
        end
      else []
  | None => []
  end.

Definition session_entry (sessionId : option string) : FormData :=
  match sessionId with
  | Some sid => if Boolean sid then [("session_id", sid)] else []
  | None => []
  end.

Definition option_entries (options : EnrichmentOptions) : FormData :=
  [ ("enrich_cards", toString (enrichCards options));
    ("include_audio", toString (includeAudio options));
    ("include_examples", toString (includeExamples options));
    ("include_example_audio", toString_or_false (includeExampleAudio options));
    ("use_core2000", toString_or_false (useCore2000 options)) ].

(** The form [createDeck] posts to [/deck/create]. *)
Definition createDeck_form (sessionId : option string) (deckName : option string)
    (options : EnrichmentOptions) (fieldMapping : option (gmap string string))
    (storage : gmap string string) : FormData :=
  session_entry sessionId
  ++ [("deck_name", default "Japanese Vocabulary" deckName)]
  ++ option_entries options
  ++ match fieldMapping with
     | Some mapping =>
         [("field_mapping", stringify mapping); ("use_custom_mapping", "true")]
     | None => saved_mapping_entries true storage
     end.

(** The form [previewCards] posts to [/deck/preview]. *)
Definition previewCards_form (sessionId : option string) (deckName : option string)
    (sampleCount : option nat)
    (options : EnrichmentOptions) (fieldMapping : option (gmap string string))
    (storage : gmap string string) : FormData :=
  session_entry sessionId
  ++ [("deck_name", default "Japanese Vocabulary" deckName);
      ("sample_count", pretty (default 5 sampleCount))]
  ++ option_entries options
  ++ match fieldMapping with
     | Some mapping => [("field_mapping", stringify mapping)]
     | None => saved_mapping_entries false storage
     end.

End Forms.

End ApiForms.

(** * Part II: properties *)

(** ** Strings *)

Module JsFacts.
Import Js.

Lemma Boolean_true s : Boolean s = true ↔ s ≠ "".
Proof.
  unfold Boolean. rewrite negb_true_iff. split.
  - intros H ->. discriminate.
  - intros H. destruct (String.eqb_spec s ""); congruence.
Qed.

Lemma Boolean_false s : Boolean s = false ↔ s = "".
Proof.
  unfold Boolean. rewrite negb_false_iff. apply String.eqb_eq.
Qed.

Lemma startsWith_spec (s prefix : string) :
  startsWith s prefix = true ↔ ∃ post, s = String.append prefix post.
Proof.
  revert s. induction prefix as [|p prefix IH]; intros s; simpl.
  - split; [intros _; by exists s|done].
  - destruct s as [|c s]; simpl.
    + split; [done|]. by intros [post ?].
    + rewrite andb_true_iff, Ascii.eqb_eq, IH. split.
      * intros [-> [post ->]]. by exists post.
      * intros [post [= -> ->]]. split; [done|]. by exists post.
Qed.

Lemma str_includes_spec (s needle : string) :
  str_includes s needle = true ↔ occurs_in needle s.
Proof.
  unfold occurs_in. induction s as [|c s IH]; simpl.
  - rewrite orb_false_r, startsWith_spec. split.
    + intros [post ->]. by exists EmptyString, post.
    + intros (pre & post & Heq). destruct pre; simpl in Heq; [by exists post|done].
  - rewrite orb_true_iff, startsWith_spec, IH. split.
    + intros [[post ->]|(pre & post & ->)].
      * by exists EmptyString, post.
      * by exists (String c pre), post.
    + intros (pre & post & Heq). destruct pre as [|c' pre]; simpl in Heq.
      * left. by exists post.
      * injection Heq as -> ->. right. by exists pre, post.
Qed.

End JsFacts.

(** ** Mapping validation and header suggestions *)

Module FieldMapperFacts.
Import Js JsFacts FieldMapper.

(** *** The first loop *)

Lemma required_loop mapping :
  foldl (check_required mapping) (∅, true) ankiFields =
  if falsy (mapping !! "japanese")
  then ({[ "japanese" := "Japanese Word is required" ]}, false)
  else (∅, true).
Proof.
  unfold ankiFields, check_required; simpl.
  destruct (falsy (mapping !! "japanese")); reflexivity.
Qed.

(** *** [usedHeaders.length !== uniqueHeaders.size] detects a repetition *)

Lemma size_list_to_set_le (l : list string) :
  size (list_to_set l : gset string) ≤ length l.
Proof.
  induction l as [|x l IH]; simpl.
  - done.
  - destruct (decide (x ∈ (list_to_set l : gset string))) as [Hin|Hnin].
    + assert ({[x]} ∪ list_to_set l = (list_to_set l : gset string)) as ->
        by set_solver.
      lia.
    + rewrite size_union by set_solver. rewrite size_singleton. lia.
Qed.

Lemma length_ne_size_iff (l : list string) :
  length l ≠ size (list_to_set l : gset string) ↔ ¬ NoDup l.
Proof.
  split.
  - intros Hne Hnd. apply Hne. symmetry. by apply size_list_to_set.
  - intros Hnd Heq. apply Hnd. clear Hnd.
    induction l as [|x l IH]; [constructor|].
    simpl in Heq.
    destruct (decide (x ∈ (list_to_set l : gset string))) as [Hin|Hnin].
    + assert ({[x]} ∪ list_to_set l = (list_to_set l : gset string)) as Hu
        by set_solver.
      rewrite Hu in Heq.
      pose proof (size_list_to_set_le l). lia.
    + rewrite size_union in Heq by set_solver.
      rewrite size_singleton in Heq.
      constructor; [set_solver|]. apply IH. lia.
Qed.

(** *** The [seen] filter keeps exactly the repeated items *)

Lemma seen_before_spec (x : string) (items : list string) (seen : gset string) :
  x ∈ seen_before seen items ↔
  x ≠ "" ∧ ∃ l1 l2, items = l1 ++ x :: l2 ∧ (x ∈ seen ∨ x ∈ l1).
Proof.
  revert seen. induction items as [|item rest IH]; intros seen; simpl.
  - split; [by intros ?%elem_of_nil|].
    intros (_ & l1 & l2 & Heq & _). by destruct l1.
  - destruct (Boolean item) eqn:Hb; simpl.
    + apply Boolean_true in Hb.
      case_bool_decide as Hseen.
      * rewrite elem_of_cons, IH. split.
        -- intros [->|(Hx & l1 & l2 & -> & Hor)].
           ++ split; [done|]. exists [], rest. auto.
           ++ split; [done|]. exists (item :: l1), l2. split; [done|].
              destruct Hor; [by left|right; by apply elem_of_cons; right].
        -- intros (Hx & l1 & l2 & Heq & Hor).
           destruct l1 as [|y l1]; simpl in Heq; simplify_eq; [by left|].
           right. split; [done|]. exists l1, l2. split; [done|].
           destruct Hor as [?|[->|?]%elem_of_cons]; auto.
      * rewrite IH. split.
        -- intros (Hx & l1 & l2 & -> & Hor).
           split; [done|]. exists (item :: l1), l2. split; [done|].
           destruct Hor as [[?%elem_of_singleton|?]%elem_of_union|?].
           ++ right. subst. by left.
           ++ by left.
           ++ right. by right.
        -- intros (Hx & l1 & l2 & Heq & Hor).
           destruct l1 as [|y l1]; simpl in Heq; simplify_eq.
           ++ destruct Hor as [?|?%elem_of_nil]; done.
           ++ split; [done|]. exists l1, l2. split; [done|].
              destruct Hor as [?|[->|?]%elem_of_cons]; [left|left|right]; set_solver.
    + apply Boolean_false in Hb. subst item. rewrite IH. split.
      * intros (Hx & l1 & l2 & -> & Hor).
        split; [done|]. exists ("" :: l1), l2. split; [done|].
        destruct Hor; [by left|right; by right].
      * intros (Hx & l1 & l2 & Heq & Hor).
        destruct l1 as [|y l1]; simpl in Heq; simplify_eq.
        split; [done|]. exists l1, l2. split; [done|].
        destruct Hor as [?|[->|?]%elem_of_cons]; auto. done.
Qed.

Lemma repeat_or_NoDup (l : list string) :
  NoDup l ∨ ∃ x l1 l2, l = l1 ++ x :: l2 ∧ x ∈ l1.
Proof.
  induction l as [|y l [IH|(x & l1 & l2 & -> & Hx)]].
  - left. constructor.
  - destruct (decide (y ∈ l)) as [Hin|Hnin].
    + right. apply list_elem_of_split in Hin as (l1 & l2 & ->).
      exists y, (y :: l1), l2. split; [done|]. by left.
    + left. by constructor.
  - right. exists x, (y :: l1), l2. split; [done|]. by right.
Qed.

Lemma repeat_not_NoDup (x : string) (l1 l2 : list string) :
  x ∈ l1 → ¬ NoDup (l1 ++ x :: l2).
Proof.
  intros Hx Hnd. apply NoDup_app in Hnd as (_ & Hdisj & _).
  apply (Hdisj x Hx). by left.
Qed.

(** *** Reading the repetitions back in the mapping *)

Lemma elem_of_kept (h : string) (vals : list string) :
  h ∈ kept vals ↔ h ≠ "" ∧ h ∈ vals.
Proof.
  unfold kept. rewrite list_elem_of_filter.
  rewrite Is_true_true, Boolean_true. done.
Qed.

Lemma repeat_kept_entries (L : list (string * string)) (h : string) l1 l2 :
  NoDup L.*1 → kept L.*2 = l1 ++ h :: l2 → h ∈ l1 →
  ∃ f g, f ≠ g ∧ (f, h) ∈ L ∧ (g, h) ∈ L.
Proof.
  revert l1. induction L as [|[k v] L IH]; intros l1 Hnd Heq Hin.
  - by destruct l1.
  - rewrite fmap_cons in Hnd. apply NoDup_cons in Hnd as [Hk Hnd].
    unfold kept in Heq. rewrite fmap_cons in Heq. simpl in Heq.
    assert (∀ l1', kept L.*2 = l1' ++ h :: l2 → h ∈ l1' →
              ∃ f g, f ≠ g ∧ (f, h) ∈ (k, v) :: L ∧ (g, h) ∈ (k, v) :: L) as Htail.
    { intros l1' Heq' Hin'.
      destruct (IH l1' Hnd Heq' Hin') as (f & g & Hfg & Hf & Hg).
      exists f, g. split; [done|]. split; by right. }
    destruct (decide (Boolean v)) as [Hv|Hv].
    + rewrite filter_cons_True in Heq by done.
      destruct l1 as [|y l1]; [by apply elem_of_nil in Hin|].
      simpl in Heq. injection Heq as <- Heq.
      apply elem_of_cons in Hin as [->|Hin]; [|by eapply Htail].
      assert (v ∈ kept L.*2) as Hv2.
      { unfold kept. rewrite Heq. apply elem_of_app. right. by left. }
      apply elem_of_kept in Hv2 as [_ Hv2].
      apply list_elem_of_fmap in Hv2 as ([g v'] & Hsnd & Hg). simpl in Hsnd. subst v'.
      exists k, g. split; [|split; [by left|by right]].
      intros ->. apply Hk. apply list_elem_of_fmap. by exists (g, v).
    + rewrite filter_cons_False in Heq by done. by eapply Htail.
Qed.

Lemma kept_app (l1 l2 : list string) : kept (l1 ++ l2) = kept l1 ++ kept l2.
Proof. unfold kept. apply filter_app. Qed.

Lemma entries_repeat_kept (L : list (string * string)) (f g h : string) :
  f ≠ g → h ≠ "" → (f, h) ∈ L → (g, h) ∈ L →
  ∃ l1 l2, kept L.*2 = l1 ++ h :: l2 ∧ h ∈ l1.
Proof.
  intros Hfg Hh Hf Hg.
  apply list_elem_of_split in Hf as (L1 & L2 & ->).
  assert (kept (L1 ++ (f, h) :: L2).*2 = kept L1.*2 ++ h :: kept L2.*2) as Hsplit.
  { rewrite fmap_app, fmap_cons, kept_app. simpl. f_equal.
    unfold kept. rewrite filter_cons_True; [done|].
    by apply Is_true_true, Boolean_true. }
  rewrite Hsplit.
  apply elem_of_app in Hg as [Hg|Hg].
  - exists (kept L1.*2), (kept L2.*2). split; [done|].
    apply elem_of_kept. split; [done|].
    apply list_elem_of_fmap. by exists (g, h).
  - apply elem_of_cons in Hg as [Hg|Hg]; [congruence|].
    assert (h ∈ kept L2.*2) as Hin.
    { apply elem_of_kept. split; [done|]. apply list_elem_of_fmap. by exists (g, h). }
    apply list_elem_of_split in Hin as (a & b & Hab).
    exists (kept L1.*2 ++ h :: a), b. rewrite Hab. split.
    + by rewrite <- app_assoc.
    + apply elem_of_app. right. by left.
Qed.

Lemma duplicates_spec (mapping : gmap string string) (h : string) :
  h ∈ duplicates mapping ↔ collides mapping h.
Proof.
  unfold duplicates, usedHeaders, collides.
  rewrite seen_before_spec. fold (kept (map_to_list mapping).*2).
  split.
  - intros (Hh & l1 & l2 & Heq & [Hin|Hin]); [set_solver|].
    split; [done|].
    destruct (repeat_kept_entries (map_to_list mapping) h l1 l2)
      as (f & g & Hfg & Hf & Hg); [apply NoDup_fst_map_to_list|done..|].
    exists f, g. by rewrite <- !elem_of_map_to_list.
  - intros (Hh & f & g & Hfg & Hf & Hg). split; [done|].
    rewrite <- elem_of_map_to_list in Hf, Hg.
    destruct (entries_repeat_kept _ f g h Hfg Hh Hf Hg) as (l1 & l2 & Heq & Hin).
    exists l1, l2. auto.
Qed.

Lemma usedHeaders_NoDup (mapping : gmap string string) :
  NoDup (usedHeaders mapping) ↔ ∀ h, ¬ collides mapping h.
Proof.
  split.
  - intros Hnd h Hc. apply duplicates_spec in Hc.
    unfold duplicates in Hc. apply seen_before_spec in Hc
      as (_ & l1 & l2 & Heq & [Hin|Hin]); [set_solver|].
    rewrite Heq in Hnd. by eapply repeat_not_NoDup.
  - intros Hno.
    destruct (repeat_or_NoDup (usedHeaders mapping))
      as [Hnd|(x & l1 & l2 & Heq & Hin)]; [done|].
    exfalso. apply (Hno x). apply duplicates_spec.
    unfold duplicates. apply seen_before_spec.
    assert (x ∈ usedHeaders mapping) as Hx.
    { rewrite Heq. apply elem_of_app. right. by left. }
    apply elem_of_kept in Hx as [Hx _]. split; [done|].
    exists l1, l2. auto.
Qed.

Lemma seen_before_perm (x : string) (l l' : list string) :
  l ≡ₚ l' → x ∈ seen_before ∅ l → x ∈ seen_before ∅ l'.
Proof.
  intros Hperm. rewrite !seen_before_spec.
  intros (Hx & l1 & l2 & -> & [Hin|Hin]); [set_solver|]. split; [done|].
  assert (x ∈ l') as Hx'.
  { rewrite <- Hperm. apply elem_of_app. right. by left. }
  apply list_elem_of_split in Hx' as (a & b & ->).
  apply Permutation_app_inv in Hperm.
  assert (x ∈ a ++ b) as [Ha|Hb]%elem_of_app.
  { rewrite <- Hperm. apply elem_of_app. by left. }
  - exists a, b. auto.
  - apply list_elem_of_split in Hb as (c & d & ->).
    exists (a ++ x :: c), d. split; [by rewrite <- app_assoc|].
    right. apply elem_of_app. right. by left.
Qed.

(** *** The second loop *)

Lemma mark_loop_stable dups (L : list (string * string)) errors k :
  errors !! k = Some duplicate_msg →
  foldl (mark_duplicate dups) errors L !! k = Some duplicate_msg.
Proof.
  revert errors. induction L as [|[f h] L IH]; intros errors Hk; [done|].
  simpl. apply IH. unfold mark_duplicate; simpl.
  destruct (includes dups h); [|done].
  destruct (decide (f = k)) as [->|Hne].
  - apply lookup_insert_eq.
  - by rewrite lookup_insert_ne.
Qed.

Lemma mark_loop_hit dups (L : list (string * string)) errors k h :
  (k, h) ∈ L → h ∈ dups →
  foldl (mark_duplicate dups) errors L !! k = Some duplicate_msg.
Proof.
  revert errors. induction L as [|[f v] L IH]; intros errors Hin Hd.
  - by apply elem_of_nil in Hin.
  - apply elem_of_cons in Hin as [Heq|Hin]; [|by apply IH].
    injection Heq as <- <-. simpl. apply mark_loop_stable.
    unfold mark_duplicate, includes; simpl.
    rewrite bool_decide_eq_true_2 by done. apply lookup_insert_eq.
Qed.

Lemma mark_loop_miss dups (L : list (string * string)) errors k :
  (∀ h, (k, h) ∈ L → h ∉ dups) →
  foldl (mark_duplicate dups) errors L !! k = errors !! k.
Proof.
  revert errors. induction L as [|[f v] L IH]; intros errors Hmiss; [done|].
  simpl. rewrite IH.
  - unfold mark_duplicate, includes; simpl.
    case_bool_decide as Hv; [|done].
    rewrite lookup_insert_ne; [done|].
    intros ->. apply (Hmiss v); [by left|done].
  - intros h Hin. apply Hmiss. by right.
Qed.

(** *** What a call computes *)

Lemma falsy_spec (v : option string) :
  falsy v = false ↔ ∃ c, v = Some c ∧ c ≠ "".
Proof.
  destruct v as [c|]; simpl.
  - rewrite negb_false_iff, Boolean_true. naive_solver.
  - naive_solver.
Qed.

Lemma valid_of_spec (mapping : gmap string string) :
  valid_of mapping = true ↔
  (∃ c, mapping !! "japanese" = Some c ∧ c ≠ "") ∧ ∀ h, ¬ collides mapping h.
Proof.
  unfold valid_of, validateMapping_locals.
  rewrite required_loop, <- falsy_spec, <- usedHeaders_NoDup.
  destruct (falsy (mapping !! "japanese")); case_bool_decide as Hlen; simpl;
    try (apply length_ne_size_iff in Hlen; naive_solver).
  - naive_solver.
  - split; [intros _|done]. split; [done|].
    destruct (decide (NoDup (usedHeaders mapping))) as [?|Hn]; [done|].
    by apply length_ne_size_iff in Hn.
Qed.

Lemma errors_of_spec (mapping : gmap string string) (k e : string) :
  errors_of mapping !! k = Some e ↔
  (e = duplicate_msg ∧ ∃ h, mapping !! k = Some h ∧ collides mapping h) ∨
  (e = japanese_required_msg ∧ k = "japanese" ∧ falsy (mapping !! "japanese") = true).
Proof.
  unfold errors_of, validateMapping_locals. rewrite required_loop.
  assert (∀ errors : gmap string string,
    errors !! k = Some e ↔
      e = japanese_required_msg ∧ k = "japanese" ∧ falsy (mapping !! "japanese") = true →
    (∀ h, ¬ collides mapping h) →
    errors !! k = Some e ↔
    (e = duplicate_msg ∧ ∃ h, mapping !! k = Some h ∧ collides mapping h) ∨
    (e = japanese_required_msg ∧ k = "japanese" ∧ falsy (mapping !! "japanese") = true))
    as Hclean by (intros errors Herr Hno; rewrite Herr; naive_solver).
  assert (∀ errors : gmap string string,
    errors !! k = Some e ↔
      e = japanese_required_msg ∧ k = "japanese" ∧ falsy (mapping !! "japanese") = true →
    foldl (mark_duplicate (duplicates mapping)) errors (map_to_list mapping) !! k = Some e ↔
    (e = duplicate_msg ∧ ∃ h, mapping !! k = Some h ∧ collides mapping h) ∨
    (e = japanese_required_msg ∧ k = "japanese" ∧ falsy (mapping !! "japanese") = true))
    as Hmarked.
  { intros errors Herr.
    destruct (mapping !! k) as [h|] eqn:Hk.
    - destruct (decide (h ∈ duplicates mapping)) as [Hd|Hd].
      + rewrite (mark_loop_hit _ _ _ k h); [|by apply elem_of_map_to_list|done].
        apply duplicates_spec in Hd. split.
        * intros [= <-]. left. eauto.
        * intros [[-> _]|(_ & -> & Hf)]; [done|].
          rewrite Hk in Hf. destruct Hd as [Hh _]. simpl in Hf.
          by apply negb_true_iff, Boolean_false in Hf.
      + rewrite mark_loop_miss.
        * rewrite Herr. split; [by right|].
          intros [(_ & h' & [= <-] & Hc)|?]; [|done].
          by apply duplicates_spec in Hc.
        * intros h' Hin%elem_of_map_to_list. congruence.
    - rewrite mark_loop_miss.
      + rewrite Herr. naive_solver.
      + intros h' Hin%elem_of_map_to_list. congruence. }
  assert (length (usedHeaders mapping) = size (uniqueHeaders mapping) →
          ∀ h, ¬ collides mapping h) as Hno.
  { intros Hlen. apply usedHeaders_NoDup.
    destruct (decide (NoDup (usedHeaders mapping))) as [?|Hn]; [done|].
    by apply length_ne_size_iff in Hn. }
  destruct (falsy (mapping !! "japanese")) eqn:Hj;
    case_bool_decide as Hlen; simpl.
  - apply Hmarked. unfold japanese_required_msg.
    destruct (decide (k = "japanese")) as [->|Hne].
    + rewrite lookup_singleton_eq. naive_solver.
    + rewrite lookup_singleton_ne by done. naive_solver.
  - apply Hclean; [|apply Hno; by destruct (decide (length (usedHeaders mapping) = size (uniqueHeaders mapping)))].
    unfold japanese_required_msg.
    destruct (decide (k = "japanese")) as [->|Hne].
    + rewrite lookup_singleton_eq. naive_solver.
    + rewrite lookup_singleton_ne by done. naive_solver.
  - apply Hmarked. rewrite lookup_empty. naive_solver.
  - apply Hclean; [|apply Hno; by destruct (decide (length (usedHeaders mapping) = size (uniqueHeaders mapping)))].
    rewrite lookup_empty. naive_solver.
Qed.

Lemma validateMapping_unfold (mapping : gmap string string) (st : State) :
  validateMapping mapping st =
  (valid_of mapping, setValidationErrors (errors_of mapping) st).
Proof.
  unfold validateMapping, valid_of, errors_of.
  by destruct (validateMapping_locals mapping).
Qed.

(** The order in which the runtime enumerates the properties of the
    mapping does not matter: on any duplicate-free enumeration [entries] of an
    object, the body computes what it computes on [map_to_list]. *)
Lemma validateMapping_entry_order (entries : list (string * string)) :
  NoDup entries.*1 →
  validateMapping_ordered (list_to_map entries) entries
  = validateMapping_locals (list_to_map entries).
Proof.
  intros Hnd. set (mapping := list_to_map entries : gmap string string).
  assert (map_to_list mapping ≡ₚ entries) as Hperm by by apply map_to_list_to_map.
  unfold validateMapping_ordered, validateMapping_locals.
  destruct (foldl (check_required mapping) (∅, true) ankiFields) as [errors isValid].
  unfold uniqueHeaders, duplicates, usedHeaders. fold (kept entries.*2).
  fold (kept (map_to_list mapping).*2).
  assert (kept (map_to_list mapping).*2 ≡ₚ kept entries.*2) as Hused
    by (unfold kept; by rewrite Hperm).
  rewrite (Permutation_length Hused), (list_to_set_perm_L _ _ Hused).
  case_bool_decide; [|done]. f_equal.
  apply map_eq. intros k.
  destruct (mapping !! k) as [h|] eqn:Hk.
  - assert ((k, h) ∈ entries) as Hin by by apply elem_of_list_to_map.
    destruct (decide (h ∈ seen_before ∅ (kept entries.*2))) as [Hd|Hd].
    + rewrite (mark_loop_hit _ entries _ k h) by done.
      rewrite (mark_loop_hit _ (map_to_list mapping) _ k h); [done| |].
      * by apply elem_of_map_to_list.
      * by apply (seen_before_perm h (kept entries.*2)).
    + rewrite !mark_loop_miss; [done| |].
      * intros h' Hin'%elem_of_map_to_list ?. simplify_eq.
        apply Hd. by apply (seen_before_perm h (kept (map_to_list mapping).*2)).
      * intros h' Hin'. apply (elem_of_list_to_map (M:=gmap string)) in Hin'; [|done].
        fold mapping in Hin'. by simplify_eq.
  - rewrite !mark_loop_miss; [done| |].
    + intros h' Hin'%elem_of_map_to_list. congruence.
    + intros h' Hin'. apply (elem_of_list_to_map (M:=gmap string)) in Hin'; [|done].
      fold mapping in Hin'. congruence.
Qed.

Lemma errors_of_collision (mapping : gmap string string) (k h : string) :
  mapping !! k = Some h → collides mapping h →
  errors_of mapping !! k = Some duplicate_msg.
Proof. intros Hk Hc. apply errors_of_spec. left. eauto. Qed.

Lemma errors_of_duplicate_inv (mapping : gmap string string) (k : string) :
  errors_of mapping !! k = Some duplicate_msg →
  ∃ c g, c ≠ "" ∧ g ≠ k ∧ mapping !! k = Some c ∧ mapping !! g = Some c.
Proof.
  intros [(_ & h & Hk & Hh & f & g & Hfg & Hf & Hg)|(Habs & _)]%errors_of_spec;
    [|discriminate].
  exists h. destruct (decide (f = k)) as [->|Hne]; [exists g|exists f]; auto.
Qed.

(** *** Properties of [validateMapping] *)

(** C1. When two different fields are mapped to the same (non-empty) column,
    [validateMapping] returns [false] and every field whose column is shared
    carries the error "This column is used in multiple fields" in the
    error record written to the state. *)
Theorem validateMapping_duplicate_column
    (mapping : gmap string string) (st : State) (f g c : string) :
  f ≠ g → c ≠ "" → mapping !! f = Some c → mapping !! g = Some c →
  (validateMapping mapping st).1 = false ∧
  ∀ k h, mapping !! k = Some h → collides mapping h →
         validationErrors (validateMapping mapping st).2 !! k = Some duplicate_msg.
Proof.
  intros Hfg Hc Hf Hg. rewrite validateMapping_unfold; simpl. split.
  - destruct (valid_of mapping) eqn:Hv; [|done].
    apply valid_of_spec in Hv as [_ Hno]. exfalso. apply (Hno c).
    split; [done|]. eauto.
  - intros k h. apply errors_of_collision.
Qed.

Lemma validateMapping_duplicate_column_witness :
  (validateMapping colA_mapping term_state).1 = false ∧
  validationErrors (validateMapping colA_mapping term_state).2 !! "japanese"
    = Some "This column is used in multiple fields" ∧
  validationErrors (validateMapping colA_mapping term_state).2 !! "english"
    = Some "This column is used in multiple fields".
Proof.
  assert (colA_mapping !! "japanese" = Some "ColA") as Hj by reflexivity.
  assert (colA_mapping !! "english" = Some "ColA") as He by reflexivity.
  assert ("japanese" ≠ "english") as Hne by discriminate.
  assert ("ColA" ≠ "") as Hc by discriminate.
  destruct (validateMapping_duplicate_column colA_mapping term_state
              "japanese" "english" "ColA" Hne Hc Hj He) as [Hv Herr].
  assert (collides colA_mapping "ColA") as Hcol.
  { split; [exact Hc|]. exists "japanese", "english". auto. }
  split; [exact Hv|]. split; eapply Herr; eauto.
Defined.

(** C2 (as stated) fails: a mapping whose [japanese] entry names a column
    that is not among the headers is accepted. *)
Lemma validateMapping_ignores_headers :
  ¬ (∀ (mapping : gmap string string) (st : State),
       (validateMapping mapping st).1 = true →
       ∃ c, mapping !! "japanese" = Some c ∧ c ≠ "" ∧ c ∈ headers st).
Proof.
  intros Hclaim.
  destruct (Hclaim ghost_mapping term_state) as (c & Hc & _ & Hin).
  - vm_compute. reflexivity.
  - assert (c = "Ghost") as -> by (vm_compute in Hc; congruence).
    apply list_elem_of_In in Hin. simpl in Hin.
    repeat destruct Hin as [Hin|Hin]; try discriminate. exact Hin.
Qed.

(** C2 (amended). [validateMapping] returns [true] only if [japanese] is
    mapped to a non-empty column name; the headers of the analysed file are
    not consulted, so the verdict is the same whatever they are. *)
Theorem validateMapping_valid_japanese
    (mapping : gmap string string) (st : State) :
  (validateMapping mapping st).1 = true →
  (∃ c, mapping !! "japanese" = Some c ∧ c ≠ "") ∧
  ∀ hs, (validateMapping mapping
           (mkState hs (suggestedMapping st) (currentMapping st) (validationErrors st))).1
        = true.
Proof.
  rewrite validateMapping_unfold; simpl. intros Hv. split.
  - by apply valid_of_spec in Hv as [? _].
  - intros hs. by rewrite validateMapping_unfold.
Qed.

Lemma validateMapping_valid_japanese_witness :
  (∃ c, term_mapping !! "japanese" = Some c ∧ c ≠ "") ∧
  (validateMapping term_mapping (mkState [] ∅ ∅ ∅)).1 = true.
Proof.
  assert ((validateMapping term_mapping term_state).1 = true) as Hv
    by (vm_compute; reflexivity).
  destruct (validateMapping_valid_japanese term_mapping term_state Hv) as [Hj Hhs].
  split; [exact Hj|]. exact (Hhs []).
Defined.

(** C8. With headers Term, Definition, Pronunciation and the mapping
    japanese:Term, english:Definition, reading:Pronunciation,
    [validateMapping] returns [true] and leaves an empty error record. *)
Theorem validateMapping_term_definition_pronunciation
    (suggested current errors : gmap string string) :
  validateMapping term_mapping
    (mkState ["Term"; "Definition"; "Pronunciation"] suggested current errors)
  = (true, mkState ["Term"; "Definition"; "Pronunciation"] suggested current ∅).
Proof.
  rewrite validateMapping_unfold.
  assert (valid_of term_mapping = true) as -> by (vm_compute; reflexivity).
  assert (errors_of term_mapping = ∅) as -> by (vm_compute; reflexivity).
  reflexivity.
Qed.

(** *** Unmapped entries *)

Lemma lookup_drop_unmapped (mapping : gmap string string) (k c : string) :
  drop_unmapped mapping !! k = Some c ↔ mapping !! k = Some c ∧ c ≠ "".
Proof. unfold drop_unmapped. by rewrite map_lookup_filter_Some. Qed.

Lemma falsy_drop_unmapped (mapping : gmap string string) (k : string) :
  falsy (drop_unmapped mapping !! k) = falsy (mapping !! k).
Proof.
  destruct (falsy (mapping !! k)) eqn:Hm.
  - destruct (falsy (drop_unmapped mapping !! k)) eqn:Hd; [done|].
    apply falsy_spec in Hd as (c & Hc%lookup_drop_unmapped & _).
    assert (falsy (mapping !! k) = false) by (apply falsy_spec; naive_solver).
    congruence.
  - apply falsy_spec in Hm as (c & Hc & Hne).
    apply falsy_spec. exists c. by rewrite lookup_drop_unmapped.
Qed.

Lemma collides_drop_unmapped (mapping : gmap string string) (h : string) :
  collides (drop_unmapped mapping) h ↔ collides mapping h.
Proof.
  unfold collides. split.
  - intros (Hh & f & g & Hfg & [Hf _]%lookup_drop_unmapped & [Hg _]%lookup_drop_unmapped).
    eauto 10.
  - intros (Hh & f & g & Hfg & Hf & Hg). split; [done|].
    exists f, g. rewrite !lookup_drop_unmapped. auto.
Qed.

Lemma valid_of_drop_unmapped (mapping : gmap string string) :
  valid_of (drop_unmapped mapping) = valid_of mapping.
Proof.
  assert (valid_of (drop_unmapped mapping) = true ↔ valid_of mapping = true) as Hiff.
  { rewrite !valid_of_spec, <- !falsy_spec, falsy_drop_unmapped.
    by setoid_rewrite collides_drop_unmapped. }
  destruct (valid_of (drop_unmapped mapping)), (valid_of mapping); naive_solver.
Qed.

Lemma errors_of_drop_unmapped (mapping : gmap string string) :
  errors_of (drop_unmapped mapping) = errors_of mapping.
Proof.
  apply map_eq. intros k. apply option_eq. intros e.
  rewrite !errors_of_spec, falsy_drop_unmapped.
  split; (intros [(He & h & Hk & Hc)|Hreq]; [left|by right]); (split; [done|]);
    exists h.
  - apply (proj1 (collides_drop_unmapped _ _)) in Hc.
    apply lookup_drop_unmapped in Hk as [Hk _]. by split.
  - split; [|by apply collides_drop_unmapped].
    apply lookup_drop_unmapped. by destruct Hc.
Qed.

(** C10. Entries mapped to the empty string are treated as absent: for
    every mapping, the call does what it does on the mapping with these
    entries removed, so any number of fields may be "not mapped" together;
    the duplicate-column error is only ever put on a field whose column is
    non-empty and is also the column of another field, never on a field
    mapped to the empty string, even when other columns do collide. When
    the only column fields share is the empty one, no field gets that error
    and the verdict is decided by the [japanese] entry alone. *)
Theorem validateMapping_unmapped_entries
    (mapping : gmap string string) (st : State) :
  validateMapping mapping st
    = validateMapping (filter (λ entry, entry.2 ≠ "") mapping) st ∧
  (∀ k, validationErrors (validateMapping mapping st).2 !! k
          = Some "This column is used in multiple fields" →
        ∃ c g, c ≠ "" ∧ g ≠ k ∧ mapping !! k = Some c ∧ mapping !! g = Some c) ∧
  (∀ k, mapping !! k = Some "" →
        validationErrors (validateMapping mapping st).2 !! k
          ≠ Some "This column is used in multiple fields") ∧
  ((∀ f g c, f ≠ g → mapping !! f = Some c → mapping !! g = Some c → c = "") →
   (validateMapping mapping st).1 = negb (falsy (mapping !! "japanese")) ∧
   ∀ k, validationErrors (validateMapping mapping st).2 !! k
          ≠ Some "This column is used in multiple fields").
Proof.
  change (filter (λ entry : string * string, entry.2 ≠ "") mapping)
    with (drop_unmapped mapping).
  change "This column is used in multiple fields" with duplicate_msg.
  rewrite !validateMapping_unfold; simpl. split; [|split; [|split]].
  - by rewrite valid_of_drop_unmapped, errors_of_drop_unmapped.
  - intros k. apply errors_of_duplicate_inv.
  - intros k Hk (c & g & Hc & _ & Hk' & _)%errors_of_duplicate_inv. congruence.
  - intros Hshared.
    assert (∀ h, ¬ collides mapping h) as Hno.
    { intros h (Hh & f & g & Hfg & Hf & Hg). apply Hh. eauto. }
    split.
    + destruct (falsy (mapping !! "japanese")) eqn:Hj; simpl.
      * destruct (valid_of mapping) eqn:Hv; [|done].
        apply valid_of_spec in Hv as [Hjap _]. apply falsy_spec in Hjap. congruence.
      * apply valid_of_spec. split; [by apply falsy_spec|done].
    + intros k (c & g & Hc & Hgk & Hk & Hg)%errors_of_duplicate_inv.
      apply Hc. eauto.
Qed.

(** With a real collision beside them, the unmapped fields still carry no
    error: only the two fields on column A do. *)
Lemma validateMapping_collision_beside_unmapped :
  validateMapping
    {[ "japanese" := "A"; "english" := "A"; "reading" := ""; "example" := "" ]}
    term_state
  = (false,
     mkState ["Term"; "Definition"; "Pronunciation"] ∅ ∅
       {[ "japanese" := "This column is used in multiple fields";
          "english" := "This column is used in multiple fields" ]}).
Proof. vm_compute. reflexivity. Qed.

(** All optional fields unmapped at once: accepted, no error. *)
Lemma validateMapping_all_unmapped_but_japanese :
  validateMapping unmapped_rest term_state
  = (true, mkState ["Term"; "Definition"; "Pronunciation"] ∅ ∅ ∅).
Proof. vm_compute. reflexivity. Qed.

(** C5 (as stated) fails: a call is not free of side effects, it replaces
    the error record held in the component state. *)
Lemma validateMapping_writes_state :
  ¬ (∀ (mapping : gmap string string) (st : State),
       (validateMapping mapping st).2 = st).
Proof.
  intros Hpure.
  specialize (Hpure term_mapping server_rejected_state).
  apply (f_equal (λ st, validationErrors st !! "_general")) in Hpure.
  vm_compute in Hpure. discriminate.
Qed.

(** C5 (amended). The verdict and the error record of a call depend on the
    mapping alone (not on the state the call starts from), a second call
    with the same mapping changes nothing more, and the only state a call
    writes is the error record. *)
Theorem validateMapping_deterministic
    (mapping : gmap string string) (st st' : State) :
  (validateMapping mapping st).1 = (validateMapping mapping st').1 ∧
  validationErrors (validateMapping mapping st).2
    = validationErrors (validateMapping mapping st').2 ∧
  validateMapping mapping (validateMapping mapping st).2 = validateMapping mapping st ∧
  headers (validateMapping mapping st).2 = headers st ∧
  suggestedMapping (validateMapping mapping st).2 = suggestedMapping st ∧
  currentMapping (validateMapping mapping st).2 = currentMapping st.
Proof. rewrite !validateMapping_unfold. simpl. repeat split; reflexivity. Qed.

(** *** Header suggestions *)

Section MatchingProperties.
Variable toLowerCase : string → string.

Lemma matches_synonym_spec (fieldSynonyms : list string) (header : string) :
  matches_synonym toLowerCase fieldSynonyms header = true ↔
  ∃ synonym, synonym ∈ fieldSynonyms ∧ occurs_ignoring_case toLowerCase synonym header.
Proof.
  unfold matches_synonym, occurs_ignoring_case. rewrite existsb_exists.
  setoid_rewrite str_includes_spec. by setoid_rewrite list_elem_of_In.
Qed.

(** C6 (amended). For each of the five canonical fields, a header of the
    analysed file is offered as a possible match exactly when some entry of
    the field's synonym list occurs in the header, both put in lower case.
    The lists are: japanese: japanese, word, expression, kanji, vocabulary,
    日本語, front; english: english, meaning, translation, definition, 英語,
    back; reading: reading, pronunciation, kana, hiragana, yomigana, 読み方;
    example: example, sentence, usage, context, 例文; tags: tags, tag,
    category, categories, group. *)
Theorem findPossibleMatches_spec
    (st : State) (ankiField : string) (fieldSynonyms : list string) (header : string) :
  (ankiField, fieldSynonyms) ∈
    [ ("japanese", ["japanese"; "word"; "expression"; "kanji"; "vocabulary"; "日本語"; "front"]);
      ("english", ["english"; "meaning"; "translation"; "definition"; "英語"; "back"]);
      ("reading", ["reading"; "pronunciation"; "kana"; "hiragana"; "yomigana"; "読み方"]);
      ("example", ["example"; "sentence"; "usage"; "context"; "例文"]);
      ("tags", ["tags"; "tag"; "category"; "categories"; "group"]) ] →
  ∃ matches,
    findPossibleMatches toLowerCase st ankiField = Returned matches ∧
    (header ∈ matches ↔
     header ∈ headers st ∧
     ∃ synonym, synonym ∈ fieldSynonyms ∧
       ∃ pre post,
         toLowerCase header
         = String.append pre (String.append (toLowerCase synonym) post)).
Proof.
  intros Hfield.
  assert (synonyms !! ankiField = Some fieldSynonyms) as Htable.
  { repeat (apply elem_of_cons in Hfield as [[= -> ->]|Hfield]; [reflexivity|]).
    by apply elem_of_nil in Hfield. }
  unfold findPossibleMatches. rewrite Htable. case_bool_decide as Hlen.
  - apply nil_length_inv in Hlen. rewrite Hlen. exists []. split; [done|].
    split; [by intros ?%elem_of_nil|by intros [?%elem_of_nil _]].
  - eexists. split; [reflexivity|].
    rewrite list_elem_of_filter, Is_true_true, matches_synonym_spec.
    unfold occurs_ignoring_case, occurs_in. tauto.
Qed.

(** Outside the table: a name inherited from [Object.prototype] makes the
    call throw as soon as there is a header to test. *)
Lemma findPossibleMatches_inherited (st : State) (ankiField : string) :
  headers st ≠ [] → ankiField ∈ Object_prototype_names →
  findPossibleMatches toLowerCase st ankiField
  = Threw "TypeError: fieldSynonyms.some is not a function".
Proof.
  intros Hheaders Hname. unfold findPossibleMatches.
  rewrite bool_decide_eq_false_2 by (by destruct (headers st)).
  assert (synonyms !! ankiField = None) as ->.
  { unfold Object_prototype_names in Hname.
    repeat (apply elem_of_cons in Hname as [->|Hname]; [reflexivity|]).
    by apply elem_of_nil in Hname. }
  by rewrite bool_decide_eq_true_2.
Qed.

End MatchingProperties.

(** Upper-case headers are matched by the lower-case synonyms; headers of
    other fields are not offered. *)
Lemma findPossibleMatches_upper_case :
  findPossibleMatches toLowerCase_ascii
    (mkState ["KANJI"; "Meaning"; "My Tags"; "英語"] ∅ ∅ ∅) "japanese" = Returned ["KANJI"] ∧
  findPossibleMatches toLowerCase_ascii
    (mkState ["KANJI"; "Meaning"; "My Tags"; "英語"] ∅ ∅ ∅) "english"
    = Returned ["Meaning"; "英語"] ∧
  findPossibleMatches toLowerCase_ascii
    (mkState ["KANJI"; "Meaning"; "My Tags"; "英語"] ∅ ∅ ∅) "constructor"
    = Threw "TypeError: fieldSynonyms.some is not a function".
Proof. vm_compute. auto. Qed.

Lemma findPossibleMatches_spec_witness :
  ∃ matches,
    findPossibleMatches toLowerCase_ascii kanji_english_state "japanese" = Returned matches ∧
    ("Word" ∈ matches ↔
     "Word" ∈ headers kanji_english_state ∧
     ∃ synonym,
       synonym ∈ ["japanese"; "word"; "expression"; "kanji"; "vocabulary"; "日本語"; "front"] ∧
       ∃ pre post,
         toLowerCase_ascii "Word"
         = String.append pre (String.append (toLowerCase_ascii synonym) post)).
Proof.
  apply (findPossibleMatches_spec toLowerCase_ascii kanji_english_state "japanese").
  apply list_elem_of_In. simpl. auto.
Defined.

(** C6 (as stated) fails: the header 英語 is offered for the english field
    although none of the synonyms the specification lists for english occurs
    in it. *)
Lemma findPossibleMatches_extra_synonym :
  ¬ (∀ (st : State) (ankiField header : string),
       ankiField ∈ id <$> ankiFields →
       ∃ matches,
         findPossibleMatches toLowerCase_ascii st ankiField = Returned matches ∧
         (header ∈ matches ↔
          header ∈ headers st ∧
          ∃ synonym, synonym ∈ default [] (spec_synonyms !! ankiField) ∧
                     occurs_ignoring_case toLowerCase_ascii synonym header)).
Proof.
  intros Hclaim.
  destruct (Hclaim kanji_english_state "english" "英語") as (matches & Hrun & Hiff).
  { vm_compute. right. left. }
  assert (matches = ["英語"]) as -> by (vm_compute in Hrun; congruence).
  destruct (proj1 Hiff) as (_ & synonym & Hsyn & Hocc); [by left|].
  apply str_includes_spec in Hocc.
  change (default [] (spec_synonyms !! "english"))
    with ["english"; "meaning"; "translation"; "back"; "definition"] in Hsyn.
  repeat (apply elem_of_cons in Hsyn as [->|Hsyn]; [vm_compute in Hocc; discriminate|]).
  by apply elem_of_nil in Hsyn.
Qed.

End FieldMapperFacts.

(** ** The validation request *)

Module ApiFacts.
Import Js Api.

(** C9. [validateFieldMapping] never rejects: when the request fails,
    whatever the failure, it resolves with the result valid = false,
    errors = {_general: "Failed to validate field mapping with server"};
    when the request succeeds it resolves with the server's answer. *)
Theorem validateFieldMapping_never_rejects
    (post : Post) (sessionId : string) (mapping : gmap string string) :
  (∃ result, validateFieldMapping post sessionId mapping = Fulfilled result) ∧
  (∀ reason,
     post "http://localhost:8000/api/mapping/validate"
          (mkValidateBody sessionId mapping) = Rejected reason →
     validateFieldMapping post sessionId mapping
     = Fulfilled (mkValidationResult false
                    {[ "_general" := "Failed to validate field mapping with server" ]})) ∧
  (∀ data,
     post "http://localhost:8000/api/mapping/validate"
          (mkValidateBody sessionId mapping) = Fulfilled data →
     validateFieldMapping post sessionId mapping = Fulfilled data).
Proof.
  unfold validateFieldMapping.
  change (String.append API_BASE_URL "/mapping/validate")
    with "http://localhost:8000/api/mapping/validate".
  destruct (post _ _) as [data|reason]; simpl; split; eauto.
  all: split; [intros ? [=]; try done|intros ? [=]; by subst].
Qed.

(** With the server down the caller gets the invalid result, its only error
    under [_general]. *)
Lemma validateFieldMapping_offline_result (sessionId : string)
    (mapping : gmap string string) :
  ∃ result,
    validateFieldMapping offline sessionId mapping = Fulfilled result ∧
    valid result = false ∧
    errors result !! "_general" = Some "Failed to validate field mapping with server" ∧
    size (errors result) = 1.
Proof. eexists. split; [reflexivity|]. by vm_compute. Qed.

(** The sibling wrapper does propagate the failure. *)
Lemma applyFieldMapping_offline (sessionId : string) (mapping : gmap string string) :
  applyFieldMapping offline sessionId mapping = Rejected "Network Error".
Proof. reflexivity. Qed.

Lemma validateFieldMapping_offline (sessionId : string) (mapping : gmap string string) :
  validateFieldMapping offline sessionId mapping = Fulfilled server_unreachable.
Proof. reflexivity. Qed.

End ApiFacts.

(** ** Sense selection in the word lookup *)

Module WordLookupFacts.
Import Js JsFacts WordLookup.

(** *** Sense selection *)

Section HandlerProperties.
Variable trim : string → string.
Variable lookupWord : string → promise LookupData.
Variable addWordToCollection : AddCall → promise AddResponse.

Lemma collect_selected_first {A : Type} (field : Sense → list A)
    (ss : list Sense) (first : Sense) :
  ss !! 0 = Some first → collect_selected field ss [0] = field first.
Proof. intros H0. unfold collect_selected. simpl. by rewrite H0. Qed.

Lemma handleLookup_fulfilled (st : State) (data : LookupData) :
  trim (word st) ≠ "" →
  lookupWord (trim (word st)) = Fulfilled data →
  handleLookup trim lookupWord st =
  mkState (word st) (Some data) false None (collectionId st) (wordCount st)
    (isAddingToCollection st)
    (if senses_longer_than 0 data then [0] else []) (toasts st).
Proof.
  intros Hword Hdata. unfold handleLookup.
  apply Boolean_true in Hword. rewrite Hword. simpl. rewrite Hdata.
  destruct (senses_longer_than 0 data); [|done].
  by case_bool_decide.
Qed.

Lemma collect_selected_from {A : Type} (field : Sense → list A)
    (ss : list Sense) (ids : list nat) (acc : list A) :
  foldl (λ acc senseId,
           match ss !! senseId with
           | Some sense => acc ++ field sense
           | None => acc
           end) acc ids
  = acc ++ flat_map (λ senseId, default [] (field <$> ss !! senseId)) ids.
Proof.
  revert acc. induction ids as [|senseId ids IH]; intros acc; simpl.
  - by rewrite app_nil_r.
  - rewrite IH. destruct (ss !! senseId) as [sense|]; simpl; [|done].
    by rewrite <- app_assoc.
Qed.

Lemma collect_selected_flat_map {A : Type} (field : Sense → list A)
    (ss : list Sense) (ids : list nat) :
  collect_selected field ss ids
  = flat_map (λ senseId, default [] (field <$> ss !! senseId)) ids.
Proof. unfold collect_selected. by rewrite collect_selected_from. Qed.

(** C7. When the lookup returns more than one sense, all of them are kept in
    the result and offered for selection, one checkbox per sense with its
    index. The selection in force before the user touches it is the first
    sense only, and adding the word then sends the meanings and parts of
    speech of sense 0. A selection the user makes is what is sent instead:
    the meanings and parts of speech of exactly the selected senses, in the
    order selected. No sense is picked for the user: with the selection
    emptied nothing is sent and the user is asked to select. *)
Theorem handleLookup_surfaces_senses
    (st : State) (data : LookupData) (ss : list Sense) :
  trim (word st) ≠ "" →
  lookupWord (trim (word st)) = Fulfilled data →
  senses data = Some ss →
  1 < length ss →
  result (handleLookup trim lookupWord st) = Some data ∧
  senseOptions (handleLookup trim lookupWord st) = imap (λ idx sense, (idx, sense)) ss ∧
  (∀ idx sense,
     (idx, sense) ∈ senseOptions (handleLookup trim lookupWord st) ↔
     ss !! idx = Some sense) ∧
  selectedSenseIds (handleLookup trim lookupWord st) = [0] ∧
  (∃ first, ss !! 0 = Some first ∧
     addCall (handleLookup trim lookupWord st) =
     Some (mkAddCall (data_word data) (data_reading data)
             (sense_meanings first) (sense_parts_of_speech first) (examples data)
             (if falsy (collectionId st) then None else collectionId st)
             (Some [0]))) ∧
  (∀ ids, ids ≠ [] →
     addCall (changeSelection ids (handleLookup trim lookupWord st)) =
     Some (mkAddCall (data_word data) (data_reading data)
             (flat_map (λ senseId, default [] (sense_meanings <$> ss !! senseId)) ids)
             (flat_map (λ senseId, default [] (sense_parts_of_speech <$> ss !! senseId)) ids)
             (examples data)
             (if falsy (collectionId st) then None else collectionId st)
             (Some ids))) ∧
  (∀ ids response, ids ≠ [] →
     addWordToCollection
       (mkAddCall (data_word data) (data_reading data)
          (flat_map (λ senseId, default [] (sense_meanings <$> ss !! senseId)) ids)
          (flat_map (λ senseId, default [] (sense_parts_of_speech <$> ss !! senseId)) ids)
          (examples data)
          (if falsy (collectionId st) then None else collectionId st)
          (Some ids)) = Fulfilled response →
     handleAddToCollection addWordToCollection
       (changeSelection ids (handleLookup trim lookupWord st))
     = mkState (word st) (Some data) false None
         (if falsy (collectionId st) && negb (falsy (collection_id response))
          then collection_id response else collectionId st)
         (word_count response) false ids (toasts st ++ ["Word added!"])) ∧
  addCall (changeSelection [] (handleLookup trim lookupWord st)) = None ∧
  handleAddToCollection addWordToCollection
    (changeSelection [] (handleLookup trim lookupWord st))
  = mkState (word st) (Some data) false None (collectionId st) (wordCount st)
      (isAddingToCollection st) [] (toasts st ++ ["Please select meanings"]).
Proof.
  intros Hword Hdata Hss Hlen.
  rewrite (handleLookup_fulfilled st data Hword Hdata).
  assert (senses_longer_than 0 data = true) as H0.
  { unfold senses_longer_than. rewrite Hss. apply bool_decide_eq_true. lia. }
  assert (senses_longer_than 1 data = true) as H1.
  { unfold senses_longer_than. rewrite Hss. by apply bool_decide_eq_true. }
  rewrite H0. unfold senseOptions, addCall, handleAddToCollection, changeSelection; simpl.
  rewrite H1, Hss. simpl.
  split; [done|]. split; [done|]. split.
  { intros idx sense. rewrite elem_of_lookup_imap. split.
    - by intros (i & y & [= -> ->] & Hy).
    - intros Hidx. by exists idx, sense. }
  split; [done|]. split; [|split; [|split; [|done]]].
  - destruct ss as [|first rest]; [simpl in Hlen; lia|].
    exists first. split; [done|]. reflexivity.
  - intros ids Hids.
    assert (length ids ≠ 0) as Hn by (by destruct ids).
    rewrite (bool_decide_eq_false_2 (length ids = 0)) by done.
    rewrite (bool_decide_eq_true_2 (0 < length ids)) by lia.
    simpl. by rewrite !collect_selected_flat_map.
  - intros ids response Hids Hresponse.
    assert (length ids ≠ 0) as Hn by (by destruct ids).
    rewrite (bool_decide_eq_false_2 (length ids = 0)) by done.
    unfold addCall. simpl. rewrite H1, Hss.
    rewrite (bool_decide_eq_false_2 (length ids = 0)) by done.
    rewrite (bool_decide_eq_true_2 (0 < length ids)) by lia.
    simpl. rewrite !collect_selected_flat_map, Hresponse. simpl.
    by destruct (falsy (collectionId st) && negb (falsy (collection_id response))).
Qed.

End HandlerProperties.

Lemma handleLookup_surfaces_senses_witness :
  selectedSenseIds (handleLookup trim_ascii dictionary fresh_state) = [0] ∧
  senseOptions (handleLookup trim_ascii dictionary fresh_state) =
    [ (0, mkSense ["to hang"; "to suspend"] ["Ichidan verb"] []);
      (1, mkSense ["to sit"] ["Ichidan verb"] ["Usually written using kana alone"]) ] ∧
  addCall (handleLookup trim_ascii dictionary fresh_state) =
    Some (mkAddCall "掛ける" "かける" ["to hang"; "to suspend"] ["Ichidan verb"] []
            None (Some [0])) ∧
  addCall (changeSelection [1] (handleLookup trim_ascii dictionary fresh_state)) =
    Some (mkAddCall "掛ける" "かける" ["to sit"] ["Ichidan verb"] [] None (Some [1])) ∧
  addCall (changeSelection [] (handleLookup trim_ascii dictionary fresh_state)) = None.
Proof.
  assert (trim_ascii (word fresh_state) ≠ "") as Hword by (vm_compute; discriminate).
  assert (dictionary (trim_ascii (word fresh_state)) = Fulfilled kakeru) as Hdata
    by (vm_compute; reflexivity).
  assert (senses kakeru = Some (default [] (senses kakeru))) as Hss by reflexivity.
  assert (1 < length (default [] (senses kakeru))) as Hlen by (simpl; lia).
  destruct (handleLookup_surfaces_senses trim_ascii dictionary (λ _, Rejected "offline")
              fresh_state kakeru _ Hword Hdata Hss Hlen)
    as (_ & Hopts & _ & Hsel & (first & Hfirst & Hdefault) & Hchosen & _ & Hempty & _).
  injection Hfirst as <-.
  split; [exact Hsel|]. split; [exact Hopts|]. split; [exact Hdefault|].
  split; [|exact Hempty].
  exact (Hchosen [1] ltac:(discriminate)).
Defined.

(** With several senses and an emptied selection nothing is sent. *)
Lemma addCall_empty_selection (st : State) (data : LookupData) :
  result st = Some data → senses_longer_than 1 data = true →
  selectedSenseIds st = [] → addCall st = None.
Proof. intros Hres Hlong Hsel. unfold addCall. by rewrite Hres, Hlong, Hsel. Qed.

End WordLookupFacts.

(** ** Edits of the mapping and what the component shows *)

Module FieldMapperUiFacts.
Import Js JsFacts FieldMapper FieldMapperFacts FieldMapperUi.

Lemma collides_witness (mapping : gmap string string) (h : string) :
  collides mapping h → ∃ k, mapping !! k = Some h.
Proof. intros (_ & f & _ & _ & Hf & _). eauto. Qed.

Lemma no_collision_or_one (mapping : gmap string string) :
  (∀ h, ¬ collides mapping h) ∨ ∃ h, collides mapping h.
Proof.
  destruct (duplicates mapping) as [|h rest] eqn:Hd.
  - left. intros h Hc%duplicates_spec. rewrite Hd in Hc. by apply elem_of_nil in Hc.
  - right. exists h. apply duplicates_spec. rewrite Hd. by left.
Qed.

Lemma errors_of_empty_iff (mapping : gmap string string) :
  errors_of mapping = ∅ ↔ valid_of mapping = true.
Proof.
  split.
  - intros Hempty. apply valid_of_spec.
    assert (∀ k e, errors_of mapping !! k ≠ Some e) as Hnone.
    { intros k e. by rewrite Hempty, lookup_empty. }
    split.
    + apply falsy_spec.
      destruct (falsy (mapping !! "japanese")) eqn:Hj; [|done].
      exfalso. apply (Hnone "japanese" japanese_required_msg).
      apply errors_of_spec. by right.
    + intros h Hc. destruct (collides_witness mapping h Hc) as [k Hk].
      apply (Hnone k duplicate_msg). by apply errors_of_collision with h.
  - intros [Hj Hno]%valid_of_spec. apply map_empty. intros k.
    destruct (errors_of mapping !! k) as [e|] eqn:He; [|done].
    apply errors_of_spec in He as [(_ & h & _ & Hc)|(_ & _ & Hf)].
    + by destruct (Hno h).
    + apply falsy_spec in Hj. congruence.
Qed.

(** X1. [validateMapping] returns [true] exactly when the error record it
    writes is empty, so after a validation the Apply button (disabled while
    the record has an entry) is enabled exactly for the mappings the
    validation accepts. *)
Theorem validateMapping_valid_iff_no_errors
    (mapping : gmap string string) (st : State) :
  ((validateMapping mapping st).1 = true ↔
   validationErrors (validateMapping mapping st).2 = ∅) ∧
  applyDisabled (validateMapping mapping st).2 = negb (validateMapping mapping st).1.
Proof.
  rewrite validateMapping_unfold; simpl.
  pose proof (errors_of_empty_iff mapping) as Hiff.
  split; [by symmetry|].
  unfold applyDisabled; simpl.
  destruct (valid_of mapping); simpl.
  - rewrite (proj2 Hiff eq_refl). by rewrite map_size_empty.
  - apply bool_decide_eq_true.
    destruct (size (errors_of mapping)) eqn:Hsize; [|lia].
    apply map_size_empty_iff in Hsize. by apply Hiff in Hsize.
Qed.

Lemma hasRequiredFields_japanese (mapping : gmap string string) :
  hasRequiredFields mapping = negb (falsy (mapping !! "japanese")).
Proof. unfold hasRequiredFields; simpl. apply andb_true_r. Qed.

(** X2. [hasRequiredFields] holds exactly when [japanese] is mapped to a
    non-empty column, and [validateMapping] accepts a mapping exactly when
    [hasRequiredFields] holds and no two fields share a non-empty column. *)
Theorem validateMapping_hasRequiredFields
    (mapping : gmap string string) (st : State) :
  (hasRequiredFields mapping = true ↔
   ∃ c, mapping !! "japanese" = Some c ∧ c ≠ "") ∧
  ((validateMapping mapping st).1 = true ↔
   hasRequiredFields mapping = true ∧
   ∀ f g c, f ≠ g → mapping !! f = Some c → mapping !! g = Some c → c = "").
Proof.
  rewrite validateMapping_unfold, hasRequiredFields_japanese, negb_true_iff,
    falsy_spec; simpl.
  split; [done|]. rewrite valid_of_spec. split.
  - intros [Hj Hno]. split; [done|]. intros f g c Hfg Hf Hg.
    destruct (decide (c = "")) as [|Hc]; [done|].
    destruct (Hno c). split; [done|]. eauto.
  - intros [Hj Hshared]. split; [done|].
    intros h (Hh & f & g & Hfg & Hf & Hg). apply Hh. eauto.
Qed.

Lemma drop_unmapped_insert_empty (mapping : gmap string string) (f : string) :
  drop_unmapped (<[f := ""]> mapping) = drop_unmapped (delete f mapping).
Proof.
  apply map_eq. intros k. apply option_eq. intros c.
  rewrite !lookup_drop_unmapped.
  destruct (decide (f = k)) as [->|Hne].
  - rewrite lookup_insert_eq, lookup_delete_eq. naive_solver.
  - by rewrite lookup_insert_ne, lookup_delete_ne.
Qed.

(** X3. Choosing "Not mapped" for a field (the empty column) is validated
    like removing the field from the mapping: verdict and error record are
    the same. *)
Theorem unmapping_is_removal (ankiField : string) (st st' : State) :
  validateMapping (currentMapping (handleMappingChange ankiField "" st)) st'
  = validateMapping (delete ankiField (currentMapping st)) st'.
Proof.
  unfold handleMappingChange; simpl. rewrite !validateMapping_unfold.
  rewrite <- (valid_of_drop_unmapped (<[_ := _]> _)),
          <- (errors_of_drop_unmapped (<[_ := _]> _)),
          drop_unmapped_insert_empty,
          valid_of_drop_unmapped, errors_of_drop_unmapped.
  reflexivity.
Qed.

(** X4. Starting from a mapping the validation accepts, changing one field
    gives a mapping it accepts again exactly when the required field is not
    un-mapped and the chosen column, if any, is used by no other field. *)
Theorem edit_keeps_valid (ankiField csvHeader : string) (st : State) :
  (validateMapping (currentMapping st) st).1 = true →
  (validateMapping (currentMapping (handleMappingChange ankiField csvHeader st))
                   (handleMappingChange ankiField csvHeader st)).1 = true ↔
  (ankiField = "japanese" → csvHeader ≠ "") ∧
  (csvHeader ≠ "" → ∀ g, g ≠ ankiField → currentMapping st !! g ≠ Some csvHeader).
Proof.
  rewrite !validateMapping_unfold; simpl.
  set (m := currentMapping st). intros [(c & Hj & Hc) Hno]%valid_of_spec.
  rewrite valid_of_spec. split.
  - intros [(c' & Hj' & Hc') Hno']. split.
    + intros ->. rewrite lookup_insert_eq in Hj'. congruence.
    + intros Hh g Hg Hused. apply (Hno' csvHeader). split; [done|].
      exists ankiField, g. split; [done|].
      by rewrite lookup_insert_eq, lookup_insert_ne.
  - intros [Hreq Hfree]. split.
    + destruct (decide (ankiField = "japanese")) as [->|Hne].
      * exists csvHeader. rewrite lookup_insert_eq. auto.
      * exists c. by rewrite lookup_insert_ne.
    + intros h (Hh & f & g & Hfg & Hf & Hg).
      destruct (decide (f = ankiField)) as [->|Hf'];
        destruct (decide (g = ankiField)) as [->|Hg']; [done|..].
      * rewrite lookup_insert_eq in Hf. rewrite lookup_insert_ne in Hg by done.
        simplify_eq. by apply (Hfree Hh g).
      * rewrite lookup_insert_eq in Hg. rewrite lookup_insert_ne in Hf by done.
        simplify_eq. by apply (Hfree Hh f).
      * rewrite lookup_insert_ne in Hf, Hg by done.
        apply (Hno h). split; [done|]. eauto.
Qed.

Lemma edit_keeps_valid_witness :
  (validateMapping (currentMapping (handleMappingChange "example" "Notes" mapped_state))
                   (handleMappingChange "example" "Notes" mapped_state)).1 = true ↔
  ("example" = "japanese" → "Notes" ≠ "") ∧
  ("Notes" ≠ "" → ∀ g, g ≠ "example" → currentMapping mapped_state !! g ≠ Some "Notes").
Proof.
  apply (edit_keeps_valid "example" "Notes" mapped_state).
  vm_compute. reflexivity.
Defined.

(** X6. In a validated state the green "mapped correctly" icon is shown for
    a field exactly when the field is mapped to a non-empty column that no
    other field uses, and the red "required" icon is never shown: a required
    field that is not mapped carries an error instead. *)
Theorem statusIcon_after_validation (st : State) (field : AnkiField) :
  field ∈ ankiFields →
  (statusIcon (validateMapping (currentMapping st) st).2 field = MappedIcon ↔
   ∃ c, currentMapping st !! id field = Some c ∧ c ≠ "" ∧
        ∀ g, g ≠ id field → currentMapping st !! g ≠ Some c) ∧
  statusIcon (validateMapping (currentMapping st) st).2 field ≠ RequiredIcon.
Proof.
  intros Hfield. rewrite validateMapping_unfold; simpl.
  set (m := currentMapping st). unfold statusIcon; simpl. fold m.
  destruct (errors_of m !! id field) as [e|] eqn:He; simpl.
  - assert (e ≠ "") as Hne.
    { apply errors_of_spec in He as [[-> _]|[-> _]]; discriminate. }
    apply Boolean_true in Hne. rewrite Hne. simpl. split; [|done].
    split; [done|]. intros (c & Hc & Hcne & Hfree). exfalso.
    apply errors_of_spec in He as [(_ & h & Hh & Hnz & f & g & Hfg & Hf & Hg)|(_ & Hid & Hf)].
    + simplify_eq. destruct (decide (f = id field)) as [->|Hf'].
      * by apply (Hfree g).
      * by apply (Hfree f).
    + rewrite <- Hid, Hc in Hf. simpl in Hf.
      apply negb_true_iff, Boolean_false in Hf. done.
  - destruct (falsy (m !! id field)) eqn:Hm; simpl.
    + split.
      * split; [by destruct (required field)|].
        intros (c & Hc & Hcne & _). rewrite Hc in Hm. simpl in Hm.
        apply negb_true_iff, Boolean_false in Hm. done.
      * destruct (required field) eqn:Hreq; [|done]. exfalso.
        assert (id field = "japanese") as Hid.
        { unfold ankiFields in Hfield.
          repeat (apply elem_of_cons in Hfield as [->|Hfield]; [by simplify_eq/=|]).
          by apply elem_of_nil in Hfield. }
        assert (errors_of m !! "japanese" = Some japanese_required_msg) as Herr.
        { apply errors_of_spec. right. by rewrite <- Hid. }
        rewrite <- Hid in Herr. congruence.
    + split; [|done]. split; [intros _|done].
      apply falsy_spec in Hm as (c & Hc & Hcne). exists c. split; [done|]. split; [done|].
      intros g Hg Hused. 
      assert (errors_of m !! id field = Some duplicate_msg) as Herr; [|congruence].
      apply errors_of_collision with c; [done|]. split; [done|].
      exists (id field), g. auto.
Qed.

Lemma statusIcon_after_validation_witness :
  (statusIcon (validateMapping (currentMapping mapped_state) mapped_state).2
     (mkField "reading" "Reading/Pronunciation" false) = MappedIcon ↔
   ∃ c, currentMapping mapped_state !! "reading" = Some c ∧ c ≠ "" ∧
        ∀ g, g ≠ "reading" → currentMapping mapped_state !! g ≠ Some c) ∧
  statusIcon (validateMapping (currentMapping mapped_state) mapped_state).2
    (mkField "reading" "Reading/Pronunciation" false) ≠ RequiredIcon.
Proof.
  apply (statusIcon_after_validation mapped_state
           (mkField "reading" "Reading/Pronunciation" false)).
  apply list_elem_of_In. simpl. auto 10.
Defined.

End FieldMapperUiFacts.

(** ** The two copies of the validation agree *)

Module FieldMapper2Facts.
Import Js JsFacts FieldMapper FieldMapperFacts.

Lemma seen_before_truthy (seen : gset string) (items : list string) :
  Forall (λ item, Boolean item = true) items →
  FieldMapper2.seen_before seen items = Js.seen_before seen items.
Proof.
  intros Hall. revert seen. induction Hall as [|item rest Hitem _ IH]; intros seen.
  - done.
  - simpl. rewrite Hitem. simpl. by rewrite !IH.
Qed.

Lemma usedHeaders_truthy (mapping : gmap string string) :
  Forall (λ item, Boolean item = true) (usedHeaders mapping).
Proof.
  apply Forall_forall. intros item [Hitem _]%list_elem_of_filter.
  by apply Is_true_true.
Qed.

(** X5. The second copy of the component validates like the first: although
    its duplicate filter does not test the item itself, it is only run on the
    non-empty columns, so both copies return the same verdict and write the
    same error record for every mapping. *)
Theorem validateMapping_copies_agree (mapping : gmap string string) (st : State) :
  FieldMapper2.validateMapping mapping st = FieldMapper.validateMapping mapping st.
Proof.
  unfold FieldMapper2.validateMapping, FieldMapper.validateMapping,
    FieldMapper2.validateMapping_locals, FieldMapper.validateMapping_locals,
    FieldMapper2.duplicates, FieldMapper.duplicates.
  by rewrite (seen_before_truthy ∅ _ (usedHeaders_truthy mapping)).
Qed.

End FieldMapper2Facts.

(** ** Applying a mapping *)

Module FieldMapperHandlersFacts.
Import Js JsFacts FieldMapper FieldMapperFacts FieldMapperUi FieldMapperHandlers.

Section HandlerProperties.
Variable post : Api.Post.
Variable stringify : gmap string string → string.

Lemma validateFieldMapping_seen (sid : string) (mapping : gmap string string) :
  Api.validateFieldMapping post sid mapping =
  match post validate_url (Api.mkValidateBody sid mapping) with
  | Fulfilled validationResult => Fulfilled validationResult
  | Rejected _ => Fulfilled Api.server_unreachable
  end.
Proof.
  unfold Api.validateFieldMapping, validate_url.
  by destruct (post _ _).
Qed.

Lemma applyFieldMapping_seen (sid : string) (mapping : gmap string string) :
  Api.applyFieldMapping post sid mapping =
  post apply_url (Api.mkValidateBody sid mapping).
Proof.
  unfold Api.applyFieldMapping, apply_url.
  by destruct (post _ _).
Qed.

(** The three outcomes of a session id: none, empty, usable. *)
Lemma session_cases (p : Page) :
  (has_session p = false ∧ (sessionId p = None ∨ sessionId p = Some "")) ∨
  (has_session p = true ∧ ∃ sid, sessionId p = Some sid ∧ Boolean sid = true).
Proof.
  unfold has_session. destruct (sessionId p) as [sid|]; simpl; [|by left; auto].
  destruct (Boolean sid) eqn:Hsid; simpl.
  - right. eauto.
  - left. apply Boolean_false in Hsid. subst. auto.
Qed.

(** X7. [handleApplyMapping] hands the mapping to [onMappingComplete] and
    stores it in the session storage exactly when the client validation
    accepts it, a session exists, the server's validation accepts it and the
    apply request succeeds; in every other case neither happens. Whatever
    the outcome, the [applyingMapping] flag is off afterwards. *)
Theorem handleApplyMapping_completes (p : Page) :
  completed (handleApplyMapping post stringify p) =
    (if goes_through post p
     then completed p ++ [currentMapping (cells p)] else completed p) ∧
  sessionStorage (handleApplyMapping post stringify p) =
    (if goes_through post p
     then <["csvFieldMapping" := stringify (currentMapping (cells p))]> (sessionStorage p)
     else sessionStorage p) ∧
  applyingMapping (handleApplyMapping post stringify p) = false.
Proof.
  unfold handleApplyMapping, goes_through, apply_and_save, server_accepts, apply_succeeds.
  rewrite validateMapping_unfold; simpl.
  destruct (valid_of (currentMapping (cells p))); simpl; [|done].
  destruct (session_cases p) as [[-> [Hs|Hs]]|[-> (sid & Hs & Hsid)]];
    rewrite Hs; simpl; [done|done|].
  rewrite Hsid; simpl.
  rewrite validateFieldMapping_seen, applyFieldMapping_seen.
  destruct (post validate_url _) as [validationResult|]; simpl; [|done].
  destruct (Api.valid validationResult); simpl; [|done].
  by destruct (post apply_url _).
Qed.

(** X8. [handleApplyMapping] sends nothing for a mapping the client
    validation rejects or without a session; otherwise it sends the
    validation request, and the apply request only after the server's
    validation has accepted the mapping. *)
Theorem handleApplyMapping_requests (p : Page) :
  requests (handleApplyMapping post stringify p) =
  requests p ++
    (if (validateMapping (currentMapping (cells p)) (cells p)).1 && has_session p
     then validate_url ::
          (if server_accepts post (default "" (sessionId p)) (currentMapping (cells p))
           then [apply_url] else [])
     else []).
Proof.
  unfold handleApplyMapping, apply_and_save, server_accepts.
  rewrite validateMapping_unfold; simpl.
  destruct (valid_of (currentMapping (cells p))); simpl; [|by rewrite app_nil_r].
  destruct (session_cases p) as [[-> [Hs|Hs]]|[-> (sid & Hs & Hsid)]];
    rewrite Hs; simpl; [by rewrite app_nil_r..|].
  rewrite Hsid; simpl.
  rewrite validateFieldMapping_seen, applyFieldMapping_seen.
  destruct (post validate_url _) as [validationResult|]; simpl; [|done].
  destruct (Api.valid validationResult); simpl; [|done].
  destruct (post apply_url _); simpl; by rewrite <- app_assoc.
Qed.

(** X9. When the validation request itself fails, the mapping is not
    applied: [validateFieldMapping] turns the failure into an invalid
    result, so the handler stops with the "Server Validation Failed" toast
    and the error record {_general: "Failed to validate field mapping with
    server"}, and its branch for a thrown validation error is never taken. *)
Theorem handleApplyMapping_validation_down (p : Page) (sid reason : string) :
  (validateMapping (currentMapping (cells p)) (cells p)).1 = true →
  sessionId p = Some sid → sid ≠ "" →
  post validate_url (Api.mkValidateBody sid (currentMapping (cells p))) = Rejected reason →
  requests (handleApplyMapping post stringify p) = requests p ++ [validate_url] ∧
  completed (handleApplyMapping post stringify p) = completed p ∧
  sessionStorage (handleApplyMapping post stringify p) = sessionStorage p ∧
  validationErrors (cells (handleApplyMapping post stringify p)) =
    {[ "_general" := "Failed to validate field mapping with server" ]} ∧
  toasts (handleApplyMapping post stringify p) = toasts p ++ ["Server Validation Failed"].
Proof.
  rewrite validateMapping_unfold; simpl. intros Hvalid Hs Hsid%Boolean_true Hpost.
  unfold handleApplyMapping. rewrite validateMapping_unfold; simpl.
  rewrite Hvalid, Hs; simpl. rewrite Hsid; simpl.
  rewrite validateFieldMapping_seen, Hpost. simpl. done.
Qed.

(** X10. "Use Suggested Mapping" makes the suggestion the current mapping
    and validates it on the client only: it never sends the validation
    request, sends the apply request exactly when the suggestion passes the
    client validation and a session exists, and completes exactly when that
    request succeeds. *)
Theorem handleUseDefault_applies (p : Page) :
  currentMapping (cells (handleUseDefault post stringify p)) = suggestedMapping (cells p) ∧
  validationErrors (cells (handleUseDefault post stringify p))
    = validationErrors (validateMapping (suggestedMapping (cells p)) (cells p)).2 ∧
  requests (handleUseDefault post stringify p) =
    requests p ++
      (if (validateMapping (suggestedMapping (cells p)) (cells p)).1 && has_session p
       then [apply_url] else []) ∧
  completed (handleUseDefault post stringify p) =
    completed p ++
      (if (validateMapping (suggestedMapping (cells p)) (cells p)).1 && has_session p &&
          apply_succeeds post (default "" (sessionId p)) (suggestedMapping (cells p))
       then [suggestedMapping (cells p)] else []).
Proof.
  unfold handleUseDefault, apply_succeeds.
  rewrite !validateMapping_unfold; simpl.
  destruct (valid_of (suggestedMapping (cells p))); simpl; [|by rewrite !app_nil_r].
  destruct (session_cases p) as [[-> [Hs|Hs]]|[-> (sid & Hs & Hsid)]];
    rewrite Hs; simpl; [by rewrite !app_nil_r..|].
  rewrite Hsid; simpl. rewrite applyFieldMapping_seen.
  destruct (post apply_url _); simpl; by rewrite ?app_nil_r.
Qed.

Lemma reset_then_effect (p : Page) :
  0 < size (currentMapping (cells p)) →
  mappingEffect stringify (handleResetMapping true p) =
  mkPage (sessionId p)
    (mkState (headers (cells p)) (suggestedMapping (cells p)) ∅ ∅)
    (applyingMapping p) (isChanged p) (toasts p ++ ["Mapping reset"]) (sessionStorage p)
    (requests p) (completed p).
Proof.
  intros Hsize. unfold handleResetMapping.
  rewrite (bool_decide_eq_true_2 _ Hsize).
  unfold mappingEffect; simpl.
  rewrite bool_decide_eq_false_2; [done|].
  rewrite map_size_empty. lia.
Qed.

(** X16. After a confirmed reset the mapping and the error record are
    empty and the effect that validates a changed mapping skips an empty
    one, so the Apply button is enabled although nothing is mapped;
    pressing it sends no request: the client validation refuses the empty
    mapping and reports the missing Japanese field. A declined reset
    changes nothing. *)
Theorem reset_then_apply (p : Page) :
  0 < size (currentMapping (cells p)) →
  handleResetMapping false p = p ∧
  currentMapping (cells (mappingEffect stringify (handleResetMapping true p))) = ∅ ∧
  applyDisabled (cells (mappingEffect stringify (handleResetMapping true p))) = false ∧
  requests (handleApplyMapping post stringify (mappingEffect stringify (handleResetMapping true p)))
    = requests p ∧
  completed (handleApplyMapping post stringify (mappingEffect stringify (handleResetMapping true p)))
    = completed p ∧
  toasts (handleApplyMapping post stringify (mappingEffect stringify (handleResetMapping true p)))
    = toasts p ++ ["Mapping reset"; "Validation Error"] ∧
  validationErrors
    (cells (handleApplyMapping post stringify (mappingEffect stringify (handleResetMapping true p))))
    = {[ "japanese" := "Japanese Word is required" ]}.
Proof.
  intros Hsize. rewrite (reset_then_effect p Hsize). split.
  { unfold handleResetMapping. by rewrite (bool_decide_eq_true_2 _ Hsize). }
  split; [done|]. split; [done|].
  unfold handleApplyMapping; simpl. rewrite validateMapping_unfold.
  assert (valid_of ∅ = false) as -> by (vm_compute; reflexivity).
  assert (errors_of ∅ = {[ "japanese" := "Japanese Word is required" ]}) as ->
    by (vm_compute; reflexivity).
  simpl. by rewrite <- app_assoc.
Qed.

End HandlerProperties.

Lemma reset_then_apply_witness :
  handleResetMapping false (sample_page term_mapping) = sample_page term_mapping ∧
  requests (handleApplyMapping validation_down sample_stringify
              (mappingEffect sample_stringify (handleResetMapping true (sample_page term_mapping))))
    = [].
Proof.
  destruct (reset_then_apply validation_down sample_stringify (sample_page term_mapping))
    as (Hdeclined & _ & _ & Hreq & _).
  - vm_compute. lia.
  - split; [exact Hdeclined|exact Hreq].
Defined.

Lemma handleApplyMapping_validation_down_witness :
  requests (handleApplyMapping validation_down sample_stringify (sample_page term_mapping))
    = [validate_url] ∧
  completed (handleApplyMapping validation_down sample_stringify (sample_page term_mapping))
    = [].
Proof.
  destruct (handleApplyMapping_validation_down validation_down sample_stringify
              (sample_page term_mapping) "session-1" "Network Error")
    as (Hreq & Hdone & _).
  - vm_compute. reflexivity.
  - reflexivity.
  - discriminate.
  - vm_compute. reflexivity.
  - split; [exact Hreq|exact Hdone].
Defined.

End FieldMapperHandlersFacts.

(** ** The forms of deck creation and preview *)

Module ApiFormsFacts.
Import Js JsFacts ApiForms.

Section FormProperties.
Variable stringify : gmap string string → string.
Variable parse : string → promise Json.

(** The saved mapping is sent exactly when it is a non-empty string that
    parses to a value with keys. *)
Definition saved_usable (storage : gmap string string) (v : string) : Prop :=
  storage !! "csvFieldMapping" = Some v ∧ v ≠ "" ∧
  ∃ parsedMapping, parse v = Fulfilled parsedMapping ∧ has_keys parsedMapping = true.

Lemma saved_mapping_entries_spec (with_flag : bool) (storage : gmap string string)
    (entry : string * string) :
  entry ∈ saved_mapping_entries parse with_flag storage ↔
  (∃ v, entry = ("field_mapping", v) ∧ saved_usable storage v) ∨
  (with_flag = true ∧ entry = ("use_custom_mapping", "true") ∧ ∃ v, saved_usable storage v).
Proof.
  clear stringify. unfold saved_mapping_entries, saved_usable.
  assert (∀ saved,
    storage !! "csvFieldMapping" = Some saved →
    (saved = "" ∨ (∃ reason, parse saved = Rejected reason) ∨
     ∃ parsed, parse saved = Fulfilled parsed ∧ has_keys parsed = false) →
    entry ∈ [] ↔
    (∃ v, entry = ("field_mapping", v) ∧ storage !! "csvFieldMapping" = Some v ∧ v ≠ "" ∧
          ∃ parsedMapping, parse v = Fulfilled parsedMapping ∧ has_keys parsedMapping = true) ∨
    (with_flag = true ∧ entry = ("use_custom_mapping", "true") ∧
     ∃ v, storage !! "csvFieldMapping" = Some v ∧ v ≠ "" ∧
          ∃ parsedMapping, parse v = Fulfilled parsedMapping ∧ has_keys parsedMapping = true))
    as Hskip.
  { intros saved Hs Hbad. rewrite elem_of_nil. split; [done|].
    intros [(v & _ & Hv & Hne & parsed & Hp & Hk)|(_ & _ & v & Hv & Hne & parsed & Hp & Hk)];
      rewrite Hs in Hv; simplify_eq;
      destruct Hbad as [?|[[reason ?]|(parsed' & ? & ?)]]; congruence. }
  destruct (storage !! "csvFieldMapping") as [saved|] eqn:Hs;
    [|rewrite elem_of_nil; naive_solver].
  destruct (Boolean saved) eqn:Hb.
  - apply Boolean_true in Hb.
    destruct (parse saved) as [parsed|reason] eqn:Hp; [|apply (Hskip saved); eauto].
    destruct (has_keys parsed) eqn:Hk; [|apply (Hskip saved); eauto].
    destruct with_flag; rewrite !elem_of_cons, ?elem_of_nil; naive_solver.
  - apply Boolean_false in Hb. apply (Hskip saved); auto.
Qed.

Lemma fixed_entries_keys (sessionId deckName : option string) (options : EnrichmentOptions)
    (entry : string * string) :
  entry ∈ session_entry sessionId
          ++ [("deck_name", default "Japanese Vocabulary" deckName)]
          ++ option_entries options →
  entry.1 ≠ "field_mapping" ∧ entry.1 ≠ "use_custom_mapping".
Proof.
  unfold session_entry, option_entries.
  rewrite !elem_of_app. intros [Hin|[Hin|Hin]].
  - destruct sessionId as [sid|]; [|by apply elem_of_nil in Hin].
    destruct (Boolean sid); [|by apply elem_of_nil in Hin].
    apply list_elem_of_singleton in Hin as ->. done.
  - apply list_elem_of_singleton in Hin as ->. done.
  - repeat (apply elem_of_cons in Hin as [->|Hin]; [done|]).
    by apply elem_of_nil in Hin.
Qed.

(** X11. The form of [createDeck] carries [use_custom_mapping = true]
    exactly when it carries a [field_mapping]. The mapping sent is the one
    passed to the call when there is one (whatever the session storage
    holds); otherwise it is the stored text, and only if that text is
    non-empty and parses to a value with keys: a stored text that does not
    parse is skipped and does not fail the call. *)
Theorem createDeck_form_field_mapping
    (sessionId deckName : option string) (options : EnrichmentOptions)
    (fieldMapping : option (gmap string string)) (storage : gmap string string) :
  (("use_custom_mapping", "true")
     ∈ createDeck_form stringify parse sessionId deckName options fieldMapping storage ↔
   ∃ v, ("field_mapping", v)
          ∈ createDeck_form stringify parse sessionId deckName options fieldMapping storage) ∧
  (∀ v, ("field_mapping", v)
          ∈ createDeck_form stringify parse sessionId deckName options fieldMapping storage ↔
        match fieldMapping with
        | Some mapping => v = stringify mapping
        | None => saved_usable storage v
        end).
Proof.
  unfold createDeck_form.
  assert (∀ entry tail,
    entry.1 = "field_mapping" ∨ entry.1 = "use_custom_mapping" →
    (entry ∈ session_entry sessionId
             ++ [("deck_name", default "Japanese Vocabulary" deckName)]
             ++ option_entries options ++ tail ↔ entry ∈ tail)) as Htail.
  { intros entry tail Hkey. rewrite !app_assoc, elem_of_app, <- !app_assoc.
    split; [|by right]. intros [Hin|Hin]; [|done].
    apply fixed_entries_keys in Hin. naive_solver. }
  split; [|intros v]; rewrite ?Htail by (simpl; auto).
  - setoid_rewrite Htail; [|simpl; auto].
    destruct fieldMapping as [mapping|].
    + split; [intros _|intros _].
      * exists (stringify mapping). by left.
      * right. by left.
    + setoid_rewrite saved_mapping_entries_spec. naive_solver.
  - destruct fieldMapping as [mapping|].
    + rewrite !elem_of_cons, elem_of_nil. naive_solver.
    + rewrite saved_mapping_entries_spec. naive_solver.
Qed.

(** X12. A preview is asked for with the data the deck will be created
    with: leaving [sample_count] out of the preview form and
    [use_custom_mapping] out of the creation form, the two forms are the
    same list of entries. *)
Theorem previewCards_form_matches_createDeck
    (sessionId deckName : option string) (sampleCount : option nat)
    (options : EnrichmentOptions)
    (fieldMapping : option (gmap string string)) (storage : gmap string string) :
  filter (λ entry, entry.1 ≠ "sample_count")
    (previewCards_form stringify parse sessionId deckName sampleCount options
       fieldMapping storage)
  = filter (λ entry, entry.1 ≠ "use_custom_mapping")
      (createDeck_form stringify parse sessionId deckName options fieldMapping storage).
Proof.
  unfold previewCards_form, createDeck_form, session_entry, option_entries,
    saved_mapping_entries.
  destruct sessionId as [sid|]; [destruct (Boolean sid)|];
    (destruct fieldMapping as [mapping|]; [reflexivity|]);
    (destruct (storage !! "csvFieldMapping") as [saved|]; [|reflexivity]);
    (destruct (Boolean saved); [|reflexivity]);
    (destruct (parse saved) as [parsed|]; [|reflexivity]);
    destruct (has_keys parsed); reflexivity.
Qed.

End FormProperties.

End ApiFormsFacts.

(** ** Adding a looked-up word to the collection *)

Module WordLookupCollectionFacts.
Import Js JsFacts WordLookup.

Lemma collect_selected_acc {A : Type} (field : Sense → list A)
    (ss : list Sense) (ids : list nat) (acc : list A) :
  foldl (λ acc senseId,
           match ss !! senseId with
           | Some sense => acc ++ field sense
           | None => acc
           end) acc ids
  = acc ++ flat_map (λ senseId, default [] (field <$> ss !! senseId)) ids.
Proof.
  revert acc. induction ids as [|senseId ids IH]; intros acc; simpl.
  - by rewrite app_nil_r.
  - rewrite IH. destruct (ss !! senseId) as [sense|]; simpl.
    + by rewrite <- app_assoc.
    + done.
Qed.

(** X13. What is sent for a selection is the concatenation, in the order of
    the selection, of the chosen field of each selected sense; an id that
    names no sense of the result (out of range) contributes nothing, as if
    it had not been selected. *)
Theorem collect_selected_in_range {A : Type} (field : Sense → list A)
    (ss : list Sense) (ids : list nat) :
  collect_selected field ss ids
    = flat_map (λ senseId, default [] (field <$> ss !! senseId)) ids ∧
  collect_selected field ss ids
    = collect_selected field ss (filter (λ senseId, senseId < length ss) ids).
Proof.
  unfold collect_selected. rewrite !collect_selected_acc. simpl. split; [done|].
  induction ids as [|senseId ids IH]; [done|]. simpl.
  destruct (decide (senseId < length ss)) as [Hin|Hout].
  - rewrite filter_cons_True by done. simpl. by rewrite IH.
  - rewrite filter_cons_False by done.
    rewrite (lookup_ge_None_2 ss senseId) by lia. simpl. exact IH.
Qed.

Section HandlerProperties.
Variable trim : string → string.
Variable lookupWord : string → promise LookupData.
Variable addWordToCollection : AddCall → promise AddResponse.

Lemma handleLookup_rejected (st : State) (reason : string) :
  trim (word st) ≠ "" →
  lookupWord (trim (word st)) = Rejected reason →
  handleLookup trim lookupWord st =
  mkState (word st) (result st) false
    (Some "Failed to look up the word. Please try again.")
    (collectionId st) (wordCount st) (isAddingToCollection st) [] (toasts st).
Proof.
  intros Hword Hfail. unfold handleLookup.
  apply Boolean_true in Hword. rewrite Hword. simpl. by rewrite Hfail.
Qed.

(** X14. A lookup that fails does not clear the result of the lookup before
    it: the old result stays, with the selection emptied. Adding to the
    collection afterwards is refused ("Please select meanings") when the old
    result has several senses, and otherwise sends the old word with its
    flat list of meanings and without sense ids. *)
Theorem handleLookup_failure_keeps_result (st : State) (reason : string) :
  trim (word st) ≠ "" →
  lookupWord (trim (word st)) = Rejected reason →
  result (handleLookup trim lookupWord st) = result st ∧
  selectedSenseIds (handleLookup trim lookupWord st) = [] ∧
  (∀ data, result st = Some data → senses_longer_than 1 data = true →
     handleAddToCollection addWordToCollection (handleLookup trim lookupWord st)
     = toast "Please select meanings" (handleLookup trim lookupWord st)) ∧
  (∀ data, result st = Some data → senses_longer_than 1 data = false →
     addCall (handleLookup trim lookupWord st)
     = Some (mkAddCall (data_word data) (data_reading data)
               (meanings data) (parts_of_speech data) (examples data)
               (if falsy (collectionId st) then None else collectionId st)
               None)).
Proof.
  intros Hword Hfail. rewrite (handleLookup_rejected st reason Hword Hfail).
  split; [done|]. split; [done|]. split.
  - intros data Hres Hlong. unfold handleAddToCollection; simpl.
    by rewrite Hres, Hlong.
  - intros data Hres Hshort. unfold addCall; simpl.
    rewrite Hres, Hshort. simpl. by destruct (senses data).
Qed.

(** X15. Once the component holds a collection id, adding a word never
    replaces it, whatever id the response carries; and the word count
    changes only by taking the count of a successful response to the call
    made. The looked-up result and the selection are left as they were. *)
Theorem handleAddToCollection_keeps_collection (st : State) :
  (falsy (collectionId st) = false →
   collectionId (handleAddToCollection addWordToCollection st) = collectionId st) ∧
  (wordCount (handleAddToCollection addWordToCollection st) ≠ wordCount st →
   ∃ call response,
     addCall st = Some call ∧
     addWordToCollection call = Fulfilled response ∧
     wordCount (handleAddToCollection addWordToCollection st) = word_count response) ∧
  result (handleAddToCollection addWordToCollection st) = result st ∧
  selectedSenseIds (handleAddToCollection addWordToCollection st) = selectedSenseIds st.
Proof.
  unfold handleAddToCollection.
  destruct (result st) as [data|] eqn:Hres; [|by repeat split].
  destruct (senses_longer_than 1 data && bool_decide (length (selectedSenseIds st) = 0))
    eqn:Hrefuse; [by repeat split|].
  assert (addCall (setIsAddingToCollection true st) = addCall st) as ->.
  { by unfold addCall. }
  destruct (addCall st) as [call|] eqn:Hcall; simpl; [|by repeat split].
  destruct (addWordToCollection call) as [response|] eqn:Hresp; simpl;
    [|by repeat split].
  destruct (falsy (collectionId st)) eqn:Hid; simpl.
  - destruct (falsy (collection_id response)); simpl; repeat split; eauto; done.
  - repeat split; eauto.
Qed.

End HandlerProperties.

Lemma handleLookup_failure_keeps_result_witness :
  result (handleLookup trim_ascii dictionary
            (mkState "犬" (Some kakeru) false None None 0 false [1] []))
    = Some kakeru ∧
  selectedSenseIds (handleLookup trim_ascii dictionary
                      (mkState "犬" (Some kakeru) false None None 0 false [1] []))
    = [].
Proof.
  destruct (handleLookup_failure_keeps_result trim_ascii dictionary
              (λ _, Rejected "offline")
              (mkState "犬" (Some kakeru) false None None 0 false [1] []) "404")
    as (Hres & Hsel & _).
  - vm_compute. discriminate.
  - vm_compute. reflexivity.
  - split; [exact Hres|exact Hsel].
Defined.

End WordLookupCollectionFacts.
